(** * Parser combinators of deno-parsers-ts: a shallow embedding

    The development follows [src/ParserCombinators.ts].  A parser is a
    state transformer; the combinators thread a [ParserState] through
    their children.  JavaScript values are dynamically typed, a thrown
    exception unwinds every enclosing combinator and a [while] loop may
    run for ever, so a transformer returns an [Outcome]: a state, a
    thrown exception, or exhausted fuel. *)

From Stdlib Require Import ZArith List String Ascii Bool Lia DecimalString.
Import ListNotations.

Set Warnings "-register-all".

Open Scope string_scope.
Open Scope list_scope.
Open Scope Z_scope.

(** ** Values *)

(** Results are untyped at run time: [undefined], numbers, strings and
    arrays are all that the combinators of this file produce or inspect. *)
Inductive Value : Type :=
| VUndefined
| VNum (n : Z)
| VStr (s : string)
| VArr (elems : list Value).

(** [results[i]] on a value: an array is indexed, out of range and on
    anything else the combinators only ever see [undefined]. *)
Definition at_index (v : Value) (i : nat) : Value :=
  match v with
  | VArr elems => nth i elems VUndefined
  | _ => VUndefined
  end.

(** Template-literal rendering of an integer, digit by digit; JavaScript
    switches to exponent form from 1e21 on, which only the [info] text of
    an error would show. *)
Definition show (n : Z) : string := NilZero.string_of_int (Z.to_int n).

(** ** Error records and parse states *)

Module ParserError.
(** Modelled from the spec: the interface [ParserError] of
    [ParserState.ts] is not part of the sources.  The fields are the
    keys this file reads and writes: [info], [combinator], [index] and
    the two optional counters [nparser] and [nmatches]. *)
Record t : Type := mk {
  info : string;
  combinator : string;
  index : Z;
  nparser : option Z;
  nmatches : option Z
}.

(** [{ ...e, combinator: name }] *)
Definition stamp (e : t) (name : string) : t :=
  mk (info e) name (index e) (nparser e) (nmatches e).

(** [{ ...e, combinator: name, nparser: n }] *)
Definition stamp_nparser (e : t) (name : string) (n : Z) : t :=
  mk (info e) name (index e) (Some n) (nmatches e).
End ParserError.

Abbreviation ParserError := ParserError.t.

(** Modelled from the spec: the class [ParserState] of [ParserState.ts]
    is not part of the sources.  A state holds the whole input, the
    current index, the last result and the error, absent on success. *)
Record ParserState : Type := mkState {
  input : string;
  index : Z;
  result : Value;
  error : option ParserError
}.

(** Modelled from the spec: [update] of [ParserState.ts] (the spec's
    [advance]): a successful state with the new position and result, the
    error cleared. *)
Definition update (s : ParserState) (newIndex : Z) (newResult : Value)
  : ParserState :=
  mkState (input s) newIndex newResult None.

(** Modelled from the spec: [errorify] of [ParserState.ts] (the spec's
    [fail]): an erroring state at the index of the state it is called on.
    The spec has the result of a failed step absent. *)
Definition errorify (s : ParserState) (e : ParserError) : ParserState :=
  mkState (input s) (index s) VUndefined (Some e).

(** Modelled from the spec: [resultify] of [ParserState.ts] (the spec's
    [replaceResult]): a successful state at the same index, the error
    cleared and the result overwritten. *)
Definition resultify (s : ParserState) (newResult : Value) : ParserState :=
  mkState (input s) (index s) newResult None.

(** [if (state.error)]: an error record is an object, hence truthy. *)
Definition erroring (s : ParserState) : bool :=
  match error s with Some _ => true | None => false end.

(** ** Outcomes *)

Inductive Outcome (A : Type) : Type :=
| Ret (a : A)
| Throw (msg : string)
| OutOfFuel.

Arguments Ret {A} a.
Arguments Throw {A} msg.
Arguments OutOfFuel {A}.

Definition bind {A B : Type} (m : Outcome A) (k : A -> Outcome B)
  : Outcome B :=
  match m with
  | Ret a => k a
  | Throw msg => Throw msg
  | OutOfFuel => OutOfFuel
  end.

Notation "x <- m ;; k" := (bind m (fun x => k))
  (at level 61, m at next level, right associativity).
Notation "' pat <- m ;; k" := (bind m (fun x => match x with pat => k end))
  (at level 61, pat pattern, m at next level, right associativity).

(** ** Parsers *)

(** Modelled from the spec: the class [Parser] of [Parser.ts] is not part
    of the sources; it wraps exactly one state-transition function. *)
Record Parser : Type := mkParser {
  transformer : ParserState -> Outcome ParserState
}.

Module Parser.
(** Modelled from the spec: [map] of [Parser.ts] (value-map): run the
    parser and, only if it succeeded, apply [fn] to the result at the
    same index; errors pass through unchanged. *)
Definition map (p : Parser) (fn : Value -> Value) : Parser :=
  mkParser (fun inputState =>
    nextState <- transformer p inputState ;;
    if erroring nextState then Ret nextState
    else Ret (resultify nextState (fn (result nextState)))).

(** Modelled from the spec: [mapError] of [Parser.ts] (error-map): run
    the parser and, only if it failed, replace the error record by what
    [fn] computes from the failed state. *)
Definition mapError (p : Parser) (fn : ParserState -> ParserError)
  : Parser :=
  mkParser (fun inputState =>
    nextState <- transformer p inputState ;;
    if erroring nextState then Ret (errorify nextState (fn nextState))
    else Ret nextState).

(** Modelled from the spec: [chain] of [Parser.ts] (dependent-chain):
    run the parser; on success call [fn] with the result and run the
    parser it returns against the post-success state; on failure
    short-circuit without calling [fn]. *)
Definition chain (p : Parser) (fn : Value -> Outcome Parser) : Parser :=
  mkParser (fun inputState =>
    nextState <- transformer p inputState ;;
    if erroring nextState then Ret nextState
    else nextParser <- fn (result nextState) ;;
         transformer nextParser nextState).

(** Modelled from the spec: [Parser.void] of [Parser.ts], the trivial
    parser: it succeeds unconditionally, consumes nothing and carries no
    meaningful result. *)
Definition void : Parser :=
  mkParser (fun inputState => Ret (resultify inputState VUndefined)).
End Parser.

(** Modelled from the spec: [succeed] of [ParserCreators.ts] is not part
    of the sources: the parser that succeeds with [value] and consumes
    nothing; as every leaf it returns an erroring state unchanged. *)
Definition succeed (value : Value) : Parser :=
  mkParser (fun inputState =>
    if erroring inputState then Ret inputState
    else Ret (resultify inputState value)).

(** [tuple] of [index.ts]: the identity on arrays. *)
Definition tuple (data : list Parser) : list Parser := data.

(** ** sequenceOf *)

(** The variables of the [for] loop of [sequenceOf]. *)
Record SeqVars : Type := mkSeq {
  nextState : ParserState;
  finalError : option ParserError;
  psucceed : Z;
  lastIndex : Z;
  results : list Value
}.

(** One turn of the loop body for one parser. *)
Definition sequenceOf_body (v : SeqVars) (out : ParserState) : SeqVars :=
  let v1 :=
    match error out with
    | Some e => mkSeq out (Some e) (psucceed v - 1) (lastIndex v) (results v)
    | None => mkSeq out (finalError v) (psucceed v) (index out) (results v)
    end in
  mkSeq (nextState v1) (finalError v1) (psucceed v1 + 1) (lastIndex v1)
        (results v1 ++ [result out]).

Fixpoint sequenceOf_loop (parsers : list Parser) (v : SeqVars)
  : Outcome SeqVars :=
  match parsers with
  | [] => Ret v
  | parser :: rest =>
      out <- transformer parser (nextState v) ;;
      sequenceOf_loop rest (sequenceOf_body v out)
  end.

Definition sequenceOf_finish (min : Z) (v : SeqVars) : ParserState :=
  match finalError v with
  | Some fe =>
      if (psucceed v <? min) || (min =? -1)
      then errorify (nextState v)
             (ParserError.stamp_nparser fe "sequenceOf" (psucceed v))
      else update (nextState v) (lastIndex v) (VArr (results v))
  | None => update (nextState v) (lastIndex v) (VArr (results v))
  end.

Definition sequenceOf (parsers : list Parser) (min : Z) : Parser :=
  mkParser (fun inputState =>
    if erroring inputState then Ret inputState
    else
      v <- sequenceOf_loop parsers (mkSeq inputState None 0 0 []) ;;
      Ret (sequenceOf_finish min v)).

(** ** choice *)

(** The [for] loop of [choice]: every parser is run on the same incoming
    state; [Some] is the early [return nextState]. *)
Fixpoint choice_loop (parsers : list Parser) (inputState : ParserState)
  : Outcome (option ParserState) :=
  match parsers with
  | [] => Ret None
  | parser :: rest =>
      out <- transformer parser inputState ;;
      if erroring out then choice_loop rest inputState
      else Ret (Some out)
  end.

Definition choice_error (inputState : ParserState) : ParserError :=
  ParserError.mk "Unable to match with any parser" "choice"
                 (index inputState) None None.

Definition choice (parsers : list Parser) : Parser :=
  mkParser (fun inputState =>
    if erroring inputState then Ret inputState
    else
      found <- choice_loop parsers inputState ;;
      match found with
      | Some out => Ret out
      | None => Ret (errorify inputState (choice_error inputState))
      end).

(** ** many *)

(** The [while (!done)] loop of [many].  JavaScript would spin for ever
    on a parser that keeps succeeding; the model gives up after [fuel]
    attempts.  The pair returned is [nextState] and [results] at loop
    exit. *)
Fixpoint many_loop (fuel : nat) (parser : Parser) (st : ParserState)
  (acc : list Value) : Outcome (ParserState * list Value) :=
  match fuel with
  | O => OutOfFuel
  | S fuel' =>
      out <- transformer parser st ;;
      if erroring out then Ret (out, acc)
      else many_loop fuel' parser out (acc ++ [result out])
  end.

Definition count_error (name : string) (inputState : ParserState) (min : Z)
  (acc : list Value) : ParserError :=
  ParserError.mk
    ("Unable to match at least " ++ show min ++ " input(s), matched "
       ++ show (Z.of_nat (List.length acc)) ++ " instead")%string
    name (index inputState) None (Some (Z.of_nat (List.length acc))).

Definition many (fuel : nat) (parser : Parser) (min : Z) : Parser :=
  mkParser (fun inputState =>
    if erroring inputState then Ret inputState
    else
      '(last, acc) <- many_loop fuel parser inputState [] ;;
      if Z.of_nat (List.length acc) <? min
      then Ret (errorify inputState (count_error "many" inputState min acc))
      else Ret (resultify last (VArr acc))).

(** ** between *)

Definition between (left right : Parser) (content : Parser) : Parser :=
  Parser.map (sequenceOf (tuple [left; content; right]) (-1))
             (fun results => at_index results 1).

(** ** join, joinWJR *)

(** [sequenceOf(tuple(joiner, parser)).map(result => result[1])], the
    parser that [__join] puts in place of a non-first [parser] when joiner
    results are left out. *)
Definition after_joiner (joiner parser : Parser) : Parser :=
  Parser.map (sequenceOf (tuple [joiner; parser]) (-1))
             (fun result => at_index result 1).

(** The [for] loop of [__join] that builds [joinedParsers]. *)
Fixpoint __join_loop (parsers : list Parser) (joiner : Parser)
  (joinResults starts : bool) (joinedParsers : list Parser) : list Parser :=
  match parsers with
  | [] => joinedParsers
  | parser :: rest =>
      if starts then
        __join_loop rest joiner joinResults false (joinedParsers ++ [parser])
      else if joinResults then
        __join_loop rest joiner joinResults false
                    ((joinedParsers ++ [joiner]) ++ [parser])
      else
        __join_loop rest joiner joinResults false
                    (joinedParsers ++ [after_joiner joiner parser])
  end.

(** [{ ...from.error, combinator: name }]; [mapError] only calls it on a
    failed state, where the error is present. *)
Definition restamp (name : string) (from : ParserState) : ParserError :=
  match error from with
  | Some e => ParserError.stamp e name
  | None => ParserError.mk "" name 0 None None
  end.

Definition __join (parsers : list Parser) (joiner : Parser) (min : Z)
  (joinResults : bool) : Parser :=
  Parser.mapError
    (sequenceOf (__join_loop parsers joiner joinResults true []) min)
    (restamp "join").

Definition join (parsers : list Parser) (joiner : Parser) (min : Z)
  : Parser := __join parsers joiner min false.

Definition joinWJR (parsers : list Parser) (joiner : Parser) (min : Z)
  : Parser := __join parsers joiner min true.

(** ** manyJoin, manyJoinWJR *)

(** The variables of the [while (!done)] loop of [__manyJoin]; [starts]
    is passed separately. *)
Record JoinVars : Type := mkJoin {
  mj_nextState : ParserState;
  mj_done : bool;
  mj_np : Z;
  mj_results : list Value
}.

(** First half of the loop body: skipped on the first turn, otherwise the
    joiner runs. *)
Definition __manyJoin_joiner (joiner : Parser) (joinResults starts : bool)
  (v : JoinVars) : Outcome JoinVars :=
  if starts then Ret v
  else
    out <- transformer joiner (mj_nextState v) ;;
    if erroring out then Ret (mkJoin out true (mj_np v) (mj_results v))
    else if joinResults
    then Ret (mkJoin out (mj_done v) (mj_np v) (mj_results v ++ [result out]))
    else Ret (mkJoin out (mj_done v) (mj_np v) (mj_results v)).

(** Second half of the loop body: the main parser runs, also after a
    joiner that has just failed. *)
Definition __manyJoin_parser (parser : Parser) (v : JoinVars)
  : Outcome JoinVars :=
  out <- transformer parser (mj_nextState v) ;;
  if erroring out then Ret (mkJoin out true (mj_np v) (mj_results v))
  else Ret (mkJoin out (mj_done v) (mj_np v + 1)
                   (mj_results v ++ [result out])).

Fixpoint __manyJoin_loop (fuel : nat) (parser joiner : Parser)
  (joinResults starts : bool) (v : JoinVars) : Outcome JoinVars :=
  match fuel with
  | O => OutOfFuel
  | S fuel' =>
      v1 <- __manyJoin_joiner joiner joinResults starts v ;;
      v2 <- __manyJoin_parser parser v1 ;;
      if mj_done v2 then Ret v2
      else __manyJoin_loop fuel' parser joiner joinResults false v2
  end.

Definition __manyJoin (fuel : nat) (parser joiner : Parser) (min : Z)
  (joinResults : bool) : Parser :=
  mkParser (fun inputState =>
    if erroring inputState then Ret inputState
    else
      v <- __manyJoin_loop fuel parser joiner joinResults true
             (mkJoin inputState false 0 []) ;;
      if mj_np v <? min
      then Ret (errorify inputState
                  (count_error "manyJoin" inputState min (mj_results v)))
      else Ret (resultify (mj_nextState v) (VArr (mj_results v)))).

Definition manyJoin (fuel : nat) (parser joiner : Parser) (min : Z)
  : Parser := __manyJoin fuel parser joiner min false.

Definition manyJoinWJR (fuel : nat) (parser joiner : Parser) (min : Z)
  : Parser := __manyJoin fuel parser joiner min true.

(** ** Generators *)

(** What a step function may hand over at a [yield]: TypeScript types it
    as a parser, the run-time check [instanceof Parser] decides. *)
Inductive Yielded : Type :=
| YParser (p : Parser)
| YOther (v : Value).

(** The object returned by [iterator.next(...)]: [done] false with the
    yielded value and the iterator as it is now suspended, or [done] true
    with the returned value. *)
Inductive IteratorResult (I R : Type) : Type :=
| IterYield (value : Yielded) (suspended : I)
| IterDone (value : R).

Arguments IterYield {I R} value suspended.
Arguments IterDone {I R} value.

(** A generator function as an explicit step machine: [generator] is the
    fresh iterator that a call [generator()] creates, [next] resumes it
    with the value sent in.  A [function*] body cannot see the value of
    the first [next]. *)
Record Generator (A R : Type) : Type := mkGenerator {
  iterator : Type;
  generator : iterator;
  next : iterator -> A -> IteratorResult iterator R
}.

Arguments iterator {A R} g.
Arguments generator {A R} g.
Arguments next {A R} g it sent.

(** ** contextual *)

(** [runStep] of [contextual]; [fuel] bounds the number of resumptions of
    the step function. *)
Fixpoint runStep (fuel : nat) (g : Generator Value Value) (it : iterator g)
  (sent : Value) : Outcome Parser :=
  match fuel with
  | O => OutOfFuel
  | S fuel' =>
      match next g it sent with
      | IterDone value => Ret (succeed value)
      | IterYield (YOther _) _ =>
          Throw "contextual: yielded values must always be parsers"
      | IterYield (YParser nextParser) it' =>
          Ret (Parser.mapError
                 (Parser.chain nextParser (runStep fuel' g it'))
                 (restamp "contextual"))
      end
  end.

Definition contextual (fuel : nat) (g : Generator Value Value) : Parser :=
  Parser.chain Parser.void
    (fun _ => runStep fuel g (generator g) VUndefined).

(** ** stateContextual *)

(** [transformStep] of [stateContextual]. *)
Fixpoint transformStep (fuel : nat) (g : Generator ParserState ParserState)
  (it : iterator g) (sent : ParserState) : Outcome ParserState :=
  match fuel with
  | O => OutOfFuel
  | S fuel' =>
      match next g it sent with
      | IterDone value => Ret value
      | IterYield (YOther _) _ =>
          Throw "stateContextual: yielded values must always be parsers"
      | IterYield (YParser nextParser) it' =>
          out <- transformer nextParser sent ;;
          transformStep fuel' g it' out
      end
  end.

Definition stateContextual (fuel : nat)
  (g : Generator ParserState ParserState) : Parser :=
  mkParser (fun inputState => transformStep fuel g (generator g) inputState).

(** ** Leaf matchers *)

(** The input from [index] on. *)
Fixpoint skip (n : nat) (s : string) : string :=
  match n, s with
  | O, _ => s
  | S n', String _ s' => skip n' s'
  | S _, EmptyString => EmptyString
  end.

Definition remaining (s : ParserState) : string :=
  skip (Z.to_nat (index s)) (input s).

(** Modelled from the spec: [str] of [ParserCreators.ts] is not part of
    the sources.  It follows the leaf-matcher contract: on a match it
    advances past the literal with the literal as result, otherwise it
    fails at the index it was given; an erroring state is returned
    unchanged. *)
Definition str (lit : string) : Parser :=
  mkParser (fun inputState =>
    if erroring inputState then Ret inputState
    else if prefix lit (remaining inputState)
    then Ret (update inputState
                (index inputState + Z.of_nat (String.length lit)) (VStr lit))
    else Ret (errorify inputState
                (ParserError.mk ("Unable to match '" ++ lit ++ "'")%string "str"
                                (index inputState) None None))).

Definition is_digit (c : ascii) : bool :=
  (48 <=? nat_of_ascii c)%nat && (nat_of_ascii c <=? 57)%nat.

(** The leading decimal digits of a string, read as a number, and how
    many there are. *)
Fixpoint leading_digits (s : string) (acc : Z) (n : nat) : Z * nat :=
  match s with
  | String c s' =>
      if is_digit c
      then leading_digits s' (10 * acc + Z.of_nat (nat_of_ascii c - 48))
                          (S n)
      else (acc, n)
  | EmptyString => (acc, n)
  end.

(** Modelled from the spec: [uint] of [ParserCreators.ts] is not part of
    the sources.  It follows the leaf-matcher contract: one or more
    decimal digits, the result is their number. *)
Definition uint : Parser :=
  mkParser (fun inputState =>
    if erroring inputState then Ret inputState
    else
      let '(value, n) := leading_digits (remaining inputState) 0 O in
      if (n =? 0)%nat
      then Ret (errorify inputState
                  (ParserError.mk "Unable to match an unsigned integer"
                                  "uint" (index inputState) None None))
      else Ret (update inputState (index inputState + Z.of_nat n)
                       (VNum value))).

(** Running a parser on raw input from index 0. *)
Definition run (p : Parser) (targetString : string) : Outcome ParserState :=
  transformer p (mkState targetString 0 VUndefined None).

(** ** Vocabulary of the properties *)

(** A parser short-circuits when it hands back every erroring state as it
    received it. *)
Definition short_circuits (p : Parser) : Prop :=
  forall s, error s <> None -> transformer p s = Ret s.

(** [threaded ps s outs]: running [ps] in order from [s], each on the
    state the previous one returned, gives the states [outs]. *)
Inductive threaded : list Parser -> ParserState -> list ParserState -> Prop :=
| threaded_nil s : threaded [] s []
| threaded_cons p ps s out outs :
    transformer p s = Ret out ->
    threaded ps out outs ->
    threaded (p :: ps) s (out :: outs).

(** The index of the last state of a run, [d] for an empty run. *)
Definition final_index (outs : list ParserState) (d : Z) : Z :=
  fold_left (fun _ out => index out) outs d.

(** The index of the last successful state of a run, [d] when no state
    of the run is successful. *)
Definition last_success_index (outs : list ParserState) (d : Z) : Z :=
  fold_left (fun acc out => if erroring out then acc else index out) outs d.

(** The state [nextState] holds after a run from [s]. *)
Definition final_state (outs : list ParserState) (s : ParserState)
  : ParserState :=
  fold_left (fun _ out => out) outs s.

(** [fails_on s q]: run on [s], the parser [q] returns an erroring
    state. *)
Definition fails_on (s : ParserState) (q : Parser) : Prop :=
  exists out, transformer q s = Ret out /\ error out <> None.

(** [repeats p s outs f]: applied again and again from [s], [p] succeeds
    with the states [outs], in this order, and then fails with [f]. *)
Inductive repeats (p : Parser)
  : ParserState -> list ParserState -> ParserState -> Prop :=
| repeats_stop s f :
    transformer p s = Ret f -> error f <> None -> repeats p s [] f
| repeats_more s out outs f :
    transformer p s = Ret out -> error out = None ->
    repeats p out outs f ->
    repeats p s (out :: outs) f.

(** [joined j ps s steps]: from [s], for each parser of [ps] in turn the
    joiner [j] succeeds and then the parser succeeds on the state the
    joiner returned; [steps] pairs the two states of each turn. *)
Inductive joined (j : Parser)
  : list Parser -> ParserState -> list (ParserState * ParserState) -> Prop :=
| joined_nil s : joined j [] s []
| joined_cons p ps s sj sp steps :
    transformer j s = Ret sj -> error sj = None ->
    transformer p sj = Ret sp -> error sp = None ->
    joined j ps sp steps ->
    joined j (p :: ps) s ((sj, sp) :: steps).

(** [if (!state.error)] *)
Definition succeeded (s : ParserState) : bool := negb (erroring s).

(** [iterations parser joiner prev its]: the turns of the loop of
    [__manyJoin] after the first one, from the state [prev] of the last
    main match.  Every turn runs the joiner and then, on the state the
    joiner returned, the main parser; [its] pairs the two states of each
    turn.  In every turn but the last both succeed; the last turn is the
    first in which one of them fails. *)
Inductive iterations (parser joiner : Parser)
  : ParserState -> list (ParserState * ParserState) -> Prop :=
| iterations_last prev sj sp :
    transformer joiner prev = Ret sj ->
    transformer parser sj = Ret sp ->
    error sj <> None \/ error sp <> None ->
    iterations parser joiner prev [(sj, sp)]
| iterations_more prev sj sp its :
    transformer joiner prev = Ret sj -> error sj = None ->
    transformer parser sj = Ret sp -> error sp = None ->
    iterations parser joiner sp its ->
    iterations parser joiner prev ((sj, sp) :: its).

(** [manyJoin_run parser joiner s first its]: a whole run of the loop
    from [s].  The first turn runs the bare main parser and gives
    [first]; if that failed the loop is over, otherwise the turns [its]
    follow. *)
Inductive manyJoin_run (parser joiner : Parser)
  : ParserState -> ParserState -> list (ParserState * ParserState) -> Prop :=
| run_first_fails s first :
    transformer parser s = Ret first -> error first <> None ->
    manyJoin_run parser joiner s first []
| run_first_succeeds s first its :
    transformer parser s = Ret first -> error first = None ->
    iterations parser joiner first its ->
    manyJoin_run parser joiner s first its.

(** The number of successful main-parser matches of a run. *)
Definition main_matches (first : ParserState)
  (its : list (ParserState * ParserState)) : Z :=
  Z.of_nat (List.length (filter succeeded (first :: List.map snd its))).

(** The number of successful joiner matches of a run. *)
Definition joiner_matches (its : list (ParserState * ParserState)) : Z :=
  Z.of_nat (List.length (filter succeeded (List.map fst its))).

(** What one turn pushes onto [results]. *)
Definition iteration_results (joinResults : bool)
  (it : ParserState * ParserState) : list Value :=
  (if joinResults && succeeded (fst it) then [result (fst it)] else [])
    ++ (if succeeded (snd it) then [result (snd it)] else []).

(** What a whole run pushes onto [results]. *)
Definition collected (joinResults : bool) (first : ParserState)
  (its : list (ParserState * ParserState)) : list Value :=
  (if succeeded first then [result first] else [])
    ++ flat_map (iteration_results joinResults) its.

(** The state, counter and results with which the turns [its] leave the
    loop when entered with [prev], [np] and [acc]. *)
Definition after_iterations (joinResults : bool) (prev : ParserState)
  (np : Z) (acc : list Value) (its : list (ParserState * ParserState))
  : JoinVars :=
  mkJoin (final_state (List.map snd its) prev) true
         (np + Z.of_nat (List.length (filter succeeded (List.map snd its))))
         (acc ++ flat_map (iteration_results joinResults) its).

(** The variables with which a whole run leaves the loop. *)
Definition after_run (joinResults : bool) (first : ParserState)
  (its : list (ParserState * ParserState)) : JoinVars :=
  mkJoin (final_state (List.map snd its) first) true
         (main_matches first its) (collected joinResults first its).

(** A step function that asks for an ["a"], looks at the state it gets
    back and recovers from a failure instead of passing it on:
    [function* () { const st = yield str("a");
                    return st.error ? st.resultify(undefined) : st }]. *)
Definition recovering : Generator ParserState ParserState :=
  mkGenerator ParserState ParserState bool false
    (fun suspended st =>
       if suspended
       then IterDone (if erroring st then resultify st VUndefined else st)
       else IterYield (YParser (str "a")) true).

(** A state that failed at index 1 of ["ab"]. *)
Definition failed_at_1 : ParserState :=
  mkState "ab" 1 VUndefined
          (Some (ParserError.mk "Unable to match 'a'" "str" 1 None None)).

(** [drive fuel g it sent st]: resume the step function, suspended in
    [it], with [sent] and run the parser that [runStep] builds on [st]. *)
Definition drive (fuel : nat) (g : Generator Value Value) (it : iterator g)
  (sent : Value) (st : ParserState) : Outcome ParserState :=
  nextParser <- runStep fuel g it sent ;; transformer nextParser st.

(** [advances g it sent st n it' sent' st']: resumed in [it] with [sent]
    while the parse is at [st], the step function yields [n] parsers one
    after the other, each succeeds on the state of the one before, and
    the step function is then suspended in [it'], about to be resumed
    with the last result [sent'], the parse at [st']. *)
Inductive advances (g : Generator Value Value)
  : iterator g -> Value -> ParserState -> nat ->
    iterator g -> Value -> ParserState -> Prop :=
| advances_none it sent st : advances g it sent st O it sent st
| advances_more it sent st p it1 st1 n it' sent' st' :
    next g it sent = IterYield (YParser p) it1 ->
    transformer p st = Ret st1 -> error st1 = None ->
    advances g it1 (result st1) st1 n it' sent' st' ->
    advances g it sent st (S n) it' sent' st'.

(** A step function that asks for a number and then yields that number
    instead of a parser:
    [function* () { const n = yield uint; yield n; }]. *)
Definition misused : Generator Value Value :=
  mkGenerator Value Value bool false
    (fun suspended sent =>
       if suspended then IterYield (YOther sent) true
       else IterYield (YParser uint) true).

(** The states of a run of manyJoin over [uint] and [","] on ["1,2,x"]:
    1, comma, 2, comma, and the failure of [uint] on ["x"]. *)
Definition csv (i : Z) (r : Value) : ParserState := mkState "1,2,x" i r None.

Definition csv_failed : ParserState :=
  mkState "1,2,x" 4 VUndefined
          (Some (ParserError.mk "Unable to match an unsigned integer" "uint"
                                4 None None)).

Definition csv_turns : list (ParserState * ParserState) :=
  [(csv 2 (VStr ","), csv 3 (VNum 2)); (csv 4 (VStr ","), csv_failed)].

(** The error [finalError] holds after a run: the error of the last
    state of the run that failed, [d] when none failed. *)
Definition last_error (outs : list ParserState) (d : option ParserError)
  : option ParserError :=
  fold_left (fun acc out => match error out with
                            | Some e => Some e
                            | None => acc
                            end) outs d.

(** The number of successful states of a run. *)
Definition successes (outs : list ParserState) : Z :=
  Z.of_nat (List.length (filter succeeded outs)).

(** A parser that returns a successful state from every successful
    state. *)
Definition always_succeeds (p : Parser) : Prop :=
  forall st, error st = None ->
             exists out, transformer p st = Ret out /\ error out = None.

(** [threads g it st n it' st']: resumed in [it] with the state [st], the
    step function of stateContextual yields [n] parsers one after the
    other, each is run on the state sent in last, whether that state
    failed or not, and the step function is then suspended in [it'],
    about to be resumed with [st']. *)
Inductive threads (g : Generator ParserState ParserState)
  : iterator g -> ParserState -> nat -> iterator g -> ParserState -> Prop :=
| threads_none it st : threads g it st O it st
| threads_more it st p it1 st1 n it' st' :
    next g it st = IterYield (YParser p) it1 ->
    transformer p st = Ret st1 ->
    threads g it1 st1 n it' st' ->
    threads g it st (S n) it' st'.

(** A step function that reads a length and then that many ["a"]:
    [function* () { const n = yield uint;
                    const r = yield str("a".repeat(n)); return r }]. *)
Definition length_prefixed : Generator Value Value :=
  mkGenerator Value Value nat O
    (fun suspended sent =>
       match suspended with
       | O => IterYield (YParser uint) 1%nat
       | S O =>
           match sent with
           | VNum n =>
               IterYield
                 (YParser (str (string_of_list_ascii
                                  (repeat "a"%char (Z.to_nat n))))) 2%nat
           | _ => IterYield (YOther sent) 2%nat
           end
       | _ => IterDone sent
       end).

(** ** Properties *)

Lemma erroring_true s : error s <> None -> erroring s = true.
Proof. unfold erroring. destruct (error s); congruence. Qed.

Lemma erroring_false s : error s = None -> erroring s = false.
Proof. unfold erroring. intros ->. reflexivity. Qed.

Lemma erroring_some s e : error s = Some e -> erroring s = true.
Proof. unfold erroring. intros ->. reflexivity. Qed.

(** *** Short-circuit on an erroring state *)

Lemma sequenceOf_short_circuits ps min : short_circuits (sequenceOf ps min).
Proof. intros s H. simpl. now rewrite erroring_true. Qed.

Lemma choice_short_circuits ps : short_circuits (choice ps).
Proof. intros s H. simpl. now rewrite erroring_true. Qed.

Lemma many_short_circuits fuel p min : short_circuits (many fuel p min).
Proof. intros s H. simpl. now rewrite erroring_true. Qed.

Lemma __manyJoin_short_circuits fuel p j min jr :
  short_circuits (__manyJoin fuel p j min jr).
Proof. intros s H. simpl. now rewrite erroring_true. Qed.

Lemma map_short_circuits p fn :
  short_circuits p -> short_circuits (Parser.map p fn).
Proof.
  intros Hp s H. simpl. rewrite (Hp s H). simpl. now rewrite erroring_true.
Qed.

Lemma transformStep_threads g it st n it' st' :
  threads g it st n it' st' ->
  forall fuel,
    (n < fuel)%nat ->
    transformStep fuel g it st
    = match next g it' st' with
      | IterDone value => Ret value
      | IterYield (YOther _) _ =>
          Throw "stateContextual: yielded values must always be parsers"
      | IterYield (YParser q) it'' =>
          out <- transformer q st' ;; transformStep (fuel - S n) g it'' out
      end.
Proof.
  induction 1 as [it st | it st p it1 st1 n it' st' Hnext Hp _ IH];
    intros fuel Hfuel; (destruct fuel as [|fuel]; [lia|]); cbn [transformStep].
  - rewrite Nat.sub_succ, Nat.sub_0_r. reflexivity.
  - rewrite Hnext, Hp. cbn [bind]. rewrite IH by lia. reflexivity.
Qed.

(** C1: on a state whose error is present, sequenceOf, choice, many,
    between, manyJoin and manyJoinWJR return that very state.
    stateContextual does not look at the error: the state is sent to the
    step function and to the parsers it yields like any other, and the
    state the step function returns in the end is the outcome. *)
Theorem C1_short_circuit (s : ParserState) (e : ParserError)
  (H : error s = Some e) :
  (forall ps min, transformer (sequenceOf ps min) s = Ret s) /\
  (forall ps, transformer (choice ps) s = Ret s) /\
  (forall fuel p min, transformer (many fuel p min) s = Ret s) /\
  (forall l r c, transformer (between l r c) s = Ret s) /\
  (forall fuel p j min, transformer (manyJoin fuel p j min) s = Ret s) /\
  (forall fuel p j min, transformer (manyJoinWJR fuel p j min) s = Ret s) /\
  (forall fuel g n it st value,
      threads g (generator g) s n it st ->
      (n < fuel)%nat ->
      next g it st = IterDone value ->
      transformer (stateContextual fuel g) s = Ret value).
Proof.
  assert (He : error s <> None) by congruence.
  repeat split; intros.
  - now apply sequenceOf_short_circuits.
  - now apply choice_short_circuits.
  - now apply many_short_circuits.
  - apply map_short_circuits; [apply sequenceOf_short_circuits | exact He].
  - now apply __manyJoin_short_circuits.
  - now apply __manyJoin_short_circuits.
  - cbn [stateContextual transformer].
    rewrite (transformStep_threads g _ _ n it st H0 fuel H1).
    now rewrite H2.
Qed.

Lemma C1_short_circuit_witness :
  transformer (sequenceOf [uint; str ","] 1) failed_at_1 = Ret failed_at_1 /\
  transformer (stateContextual 2 recovering) failed_at_1
  = Ret (mkState "ab" 1 VUndefined None).
Proof.
  pose proof (C1_short_circuit failed_at_1
                (ParserError.mk "Unable to match 'a'" "str" 1 None None)
                eq_refl) as (Hseq & _ & _ & _ & _ & _ & Hstate).
  split; [apply Hseq|].
  apply (Hstate 2%nat recovering 1%nat true failed_at_1).
  - apply (threads_more recovering false failed_at_1 (str "a") true
             failed_at_1 O true failed_at_1);
      [reflexivity | reflexivity | apply threads_none].
  - lia.
  - reflexivity.
Defined.

(** C1, the exception: stateContextual passes an erroring state to the
    step function, which may recover from it; the state is not returned
    unchanged. *)
Lemma C1_counterexample :
  error failed_at_1 <> None /\
  transformer (stateContextual 2 recovering) failed_at_1
  = Ret (mkState "ab" 1 VUndefined None) /\
  transformer (stateContextual 2 recovering) failed_at_1 <> Ret failed_at_1.
Proof.
  repeat split; try discriminate.
Qed.

(** *** sequenceOf *)

Lemma sequenceOf_loop_threaded ps :
  forall v outs,
    threaded ps (nextState v) outs ->
    sequenceOf_loop ps v = Ret (fold_left sequenceOf_body outs v).
Proof.
  induction ps as [|p ps IH]; intros v outs Hrun; inversion Hrun; subst.
  - reflexivity.
  - simpl. rewrite H1. simpl. apply IH.
    unfold sequenceOf_body. destruct (error out); exact H4.
Qed.

Lemma sequenceOf_body_state v out : nextState (sequenceOf_body v out) = out.
Proof. unfold sequenceOf_body. now destruct (error out). Qed.

Lemma sequenceOf_loop_returns ps :
  forall v v',
    sequenceOf_loop ps v = Ret v' ->
    exists outs, threaded ps (nextState v) outs.
Proof.
  induction ps as [|p ps IH]; intros v v' Hloop.
  - exists []. constructor.
  - simpl in Hloop.
    destruct (transformer p (nextState v)) as [out| |] eqn:Hp;
      try discriminate.
    simpl in Hloop. destruct (IH _ _ Hloop) as (outs & Houts).
    rewrite sequenceOf_body_state in Houts.
    exists (out :: outs). now econstructor.
Qed.

(** A sequenceOf that returns has had every parser of the list return. *)
Lemma sequenceOf_returns_threaded ps min s out :
  error s = None ->
  transformer (sequenceOf ps min) s = Ret out ->
  exists outs, threaded ps s outs.
Proof.
  intros Hs Hout. simpl in Hout. rewrite (erroring_false _ Hs) in Hout.
  destruct (sequenceOf_loop ps (mkSeq s None 0 0 [])) as [v| |] eqn:Hloop;
    try discriminate.
  exact (sequenceOf_loop_returns ps _ _ Hloop).
Qed.

Lemma sequenceOf_body_results outs :
  forall v,
    results (fold_left sequenceOf_body outs v)
    = results v ++ List.map result outs.
Proof.
  induction outs as [|o outs IH]; intros v; simpl.
  - now rewrite app_nil_r.
  - rewrite IH. unfold sequenceOf_body.
    destruct (error o); simpl; now rewrite <- app_assoc.
Qed.

Lemma sequenceOf_body_nextState outs :
  forall v,
    nextState (fold_left sequenceOf_body outs v)
    = final_state outs (nextState v).
Proof.
  unfold final_state.
  induction outs as [|o outs IH]; intros v; simpl; [reflexivity|].
  rewrite IH. unfold sequenceOf_body. now destruct (error o).
Qed.

Lemma sequenceOf_body_all_succeed outs :
  forall v,
    Forall (fun o => error o = None) outs ->
    finalError (fold_left sequenceOf_body outs v) = finalError v /\
    lastIndex (fold_left sequenceOf_body outs v)
    = final_index outs (lastIndex v).
Proof.
  unfold final_index.
  induction outs as [|o outs IH]; intros v Hok; simpl; [now split|].
  inversion Hok as [|? ? Ho Hrest]; subst.
  destruct (IH (sequenceOf_body v o) Hrest) as [-> ->].
  unfold sequenceOf_body. rewrite Ho. simpl. now split.
Qed.

Lemma sequenceOf_body_keeps_error outs :
  forall v e,
    finalError v = Some e ->
    exists e', finalError (fold_left sequenceOf_body outs v) = Some e'.
Proof.
  induction outs as [|o outs IH]; intros v e Hv; cbn [fold_left]; [eauto|].
  destruct (error o) as [eo|] eqn:Ho;
    eapply IH; unfold sequenceOf_body; rewrite Ho; simpl;
    [reflexivity | exact Hv].
Qed.

Lemma sequenceOf_body_some_failed outs :
  forall v,
    Exists (fun o => error o <> None) outs ->
    exists e, finalError (fold_left sequenceOf_body outs v) = Some e.
Proof.
  induction outs as [|o outs IH]; intros v Hex; inversion Hex; subst;
    cbn [fold_left].
  - destruct (error o) as [eo|] eqn:Ho; [|congruence].
    eapply sequenceOf_body_keeps_error.
    unfold sequenceOf_body. rewrite Ho. reflexivity.
  - now apply IH.
Qed.

Lemma sequenceOf_body_lastIndex outs :
  forall v,
    lastIndex (fold_left sequenceOf_body outs v)
    = last_success_index outs (lastIndex v).
Proof.
  unfold last_success_index.
  induction outs as [|o outs IH]; intros v; cbn [fold_left]; [reflexivity|].
  rewrite IH. unfold sequenceOf_body, erroring. now destruct (error o).
Qed.

(** A successful sequenceOf stops at the index of the last child that
    succeeded, and at index 0 when none did. *)
Lemma sequenceOf_success_index ps min s outs out :
  error s = None ->
  threaded ps s outs ->
  transformer (sequenceOf ps min) s = Ret out ->
  error out = None ->
  index out = last_success_index outs 0.
Proof.
  intros Hs Hrun Hout Hok. simpl in Hout. rewrite (erroring_false _ Hs) in Hout.
  rewrite (sequenceOf_loop_threaded ps (mkSeq s None 0 0 []) outs Hrun)
    in Hout.
  simpl in Hout. injection Hout as <-. revert Hok. unfold sequenceOf_finish.
  destruct (finalError _);
    [destruct (_ || _)|]; simpl; intros Hok; try discriminate;
    now rewrite sequenceOf_body_lastIndex.
Qed.

(** When every parser of the list succeeds on the threaded states,
    sequenceOf succeeds for every [min] with the list of their results. *)
Lemma sequenceOf_all_succeed ps min s outs :
  error s = None ->
  threaded ps s outs ->
  Forall (fun o => error o = None) outs ->
  transformer (sequenceOf ps min) s
  = Ret (update (final_state outs s) (final_index outs 0)
                (VArr (List.map result outs))).
Proof.
  intros Hs Hrun Hok. simpl. rewrite (erroring_false _ Hs).
  rewrite (sequenceOf_loop_threaded ps (mkSeq s None 0 0 []) outs Hrun).
  simpl. unfold sequenceOf_finish.
  destruct (sequenceOf_body_all_succeed outs (mkSeq s None 0 0 []) Hok)
    as [-> ->].
  simpl. rewrite sequenceOf_body_results, sequenceOf_body_nextState.
  reflexivity.
Qed.

(** With [min = -1] one failure among the threaded states fails the whole
    sequence, under the name sequenceOf. *)
Lemma sequenceOf_strict_fails ps s outs :
  error s = None ->
  threaded ps s outs ->
  Exists (fun o => error o <> None) outs ->
  exists e,
    transformer (sequenceOf ps (-1)) s = Ret (errorify (final_state outs s) e)
    /\ ParserError.combinator e = "sequenceOf".
Proof.
  intros Hs Hrun Hex. simpl. rewrite (erroring_false _ Hs).
  rewrite (sequenceOf_loop_threaded ps (mkSeq s None 0 0 []) outs Hrun).
  simpl. unfold sequenceOf_finish.
  destruct (sequenceOf_body_some_failed outs (mkSeq s None 0 0 []) Hex)
    as [e ->].
  rewrite orb_true_r, sequenceOf_body_nextState. simpl.
  eexists. split; reflexivity.
Qed.

(** C2 (the code departs from the specification): sequenceOf with [min = 0] on
    the successful state at index 1 of ["ab"], where its only child fails,
    returns a successful state at index 0: [lastIndex] starts at 0, not at
    the index of the incoming state. *)
Theorem C2_sequenceOf_index_reset :
  transformer (str "a") (mkState "ab" 1 (VStr "a") None)
  = Ret (mkState "ab" 1 VUndefined
           (Some (ParserError.mk "Unable to match 'a'" "str" 1 None None))) /\
  transformer (sequenceOf [str "a"] 0) (mkState "ab" 1 (VStr "a") None)
  = Ret (mkState "ab" 0 (VArr [VUndefined]) None) /\
  transformer (sequenceOf [] (-1)) (mkState "ab" 1 (VStr "a") None)
  = Ret (mkState "ab" 0 (VArr []) None).
Proof. repeat split. Qed.

(** C3: sequenceOf([A,B,C]) with [min = -1], on a successful state from
    which A, B and C return in turn, succeeds exactly when all three
    succeed on the threaded states; then the result is [rA, rB, rC] and
    the index is the one C reached, so it is at or after the incoming
    index whenever no step moved backwards; any failure makes it fail
    with an error naming sequenceOf. *)
Theorem C3_sequenceOf_strict (A B C : Parser) (s sA sB sC : ParserState)
  (Hs : error s = None)
  (HA : transformer A s = Ret sA)
  (HB : transformer B sA = Ret sB)
  (HC : transformer C sB = Ret sC) :
  exists out,
    transformer (sequenceOf [A; B; C] (-1)) s = Ret out /\
    (error out = None <->
     error sA = None /\ error sB = None /\ error sC = None) /\
    (error out = None ->
     result out = VArr [result sA; result sB; result sC] /\
     index out = index sC /\
     (index s <= index sA -> index sA <= index sB -> index sB <= index sC ->
      index s <= index out)) /\
    (error out <> None ->
     exists e, error out = Some e /\
               ParserError.combinator e = "sequenceOf").
Proof.
  assert (Hrun : threaded [A; B; C] s [sA; sB; sC])
    by (repeat (econstructor; [eassumption|]); constructor).
  destruct (error sA) as [eA|] eqn:EA;
    [|destruct (error sB) as [eB|] eqn:EB;
      [|destruct (error sC) as [eC|] eqn:EC]].
  4: {
    eexists. split.
    - apply (sequenceOf_all_succeed _ _ _ _ Hs Hrun).
      repeat constructor; assumption.
    - simpl. repeat split; auto; try lia. congruence.
  }
  all: destruct (sequenceOf_strict_fails _ _ _ Hs Hrun) as (e & -> & He);
    [ first [ apply Exists_cons_hd; congruence
            | apply Exists_cons_tl, Exists_cons_hd; congruence
            | apply Exists_cons_tl, Exists_cons_tl, Exists_cons_hd;
              congruence ]
    | eexists; split; [reflexivity|]; simpl;
      repeat split; try discriminate; try (intros (? & ? & ?); discriminate);
      eauto ].
Qed.

Lemma C3_sequenceOf_strict_witness :
  exists out,
    transformer (sequenceOf [uint; str ","; uint] (-1))
                (mkState "1,2" 0 VUndefined None) = Ret out /\
    (error out = None -> result out = VArr [VNum 1; VStr ","; VNum 2]).
Proof.
  destruct (C3_sequenceOf_strict uint (str ",") uint
              (mkState "1,2" 0 VUndefined None)
              (mkState "1,2" 1 (VNum 1) None)
              (mkState "1,2" 2 (VStr ",") None)
              (mkState "1,2" 3 (VNum 2) None)
              eq_refl eq_refl eq_refl eq_refl)
    as (out & Hout & _ & Hres & _).
  exists out. split; [exact Hout|].
  intros Hok. exact (proj1 (Hres Hok)).
Defined.

(** C4: sequenceOf([A,B], min = 1), on a successful state on which A
    succeeds while B fails on the state A returned (a failed step carries
    no result), succeeds with result [rA, undefined] at the index A
    reached. *)
Theorem C4_sequenceOf_partial (A B : Parser) (s sA sB : ParserState)
  (eB : ParserError)
  (Hs : error s = None)
  (HA : transformer A s = Ret sA)
  (HokA : error sA = None)
  (HB : transformer B sA = Ret sB)
  (HfailB : error sB = Some eB)
  (Habsent : result sB = VUndefined) :
  exists out,
    transformer (sequenceOf [A; B] 1) s = Ret out /\
    error out = None /\
    result out = VArr [result sA; VUndefined] /\
    index out = index sA.
Proof.
  eexists. split.
  - simpl. rewrite (erroring_false _ Hs). simpl. rewrite HA. simpl.
    unfold sequenceOf_body at 2. rewrite HokA. simpl. rewrite HB. simpl.
    unfold sequenceOf_finish, sequenceOf_body. rewrite HfailB. simpl.
    rewrite Habsent. reflexivity.
  - simpl. repeat split.
Qed.

Lemma C4_sequenceOf_partial_witness :
  exists out,
    transformer (sequenceOf [str "a"; str "b"] 1)
                (mkState "ac" 0 VUndefined None) = Ret out /\
    error out = None /\
    result out = VArr [VStr "a"; VUndefined] /\
    index out = 1.
Proof.
  exact (C4_sequenceOf_partial (str "a") (str "b")
           (mkState "ac" 0 VUndefined None)
           (mkState "ac" 1 (VStr "a") None)
           (mkState "ac" 1 VUndefined
              (Some (ParserError.mk "Unable to match 'b'" "str" 1 None None)))
           (ParserError.mk "Unable to match 'b'" "str" 1 None None)
           eq_refl eq_refl eq_refl eq_refl eq_refl eq_refl).
Defined.

(** *** choice *)

Lemma choice_loop_first pre :
  forall p post s out,
    Forall (fails_on s) pre ->
    transformer p s = Ret out -> error out = None ->
    choice_loop (pre ++ p :: post) s = Ret (Some out).
Proof.
  induction pre as [|q pre IH]; intros p post s out Hpre Hp Hok; simpl.
  - rewrite Hp. simpl. now rewrite (erroring_false _ Hok).
  - inversion Hpre as [|? ? (o & Hq & Ho) Hrest]; subst.
    rewrite Hq. simpl. rewrite (erroring_true _ Ho). now apply IH.
Qed.

Lemma choice_loop_none ps :
  forall s, Forall (fails_on s) ps -> choice_loop ps s = Ret None.
Proof.
  induction ps as [|q ps IH]; intros s Hall; simpl; [reflexivity|].
  inversion Hall as [|? ? (o & Hq & Ho) Hrest]; subst.
  rewrite Hq. simpl. rewrite (erroring_true _ Ho). now apply IH.
Qed.

(** C6: on a successful state [s] choice runs its parsers on [s] itself:
    when the parsers before [p] fail on [s] and [p] succeeds on [s], the
    state [p] returned is returned as it is; when all fail on [s], the
    outcome is [s] made erroring with the one aggregate choice error at
    the index of [s], whatever the errors of the children were. *)
Theorem C6_choice (s : ParserState) (Hs : error s = None) :
  (forall pre p post out,
      Forall (fails_on s) pre ->
      transformer p s = Ret out -> error out = None ->
      transformer (choice (pre ++ p :: post)) s = Ret out) /\
  (forall ps,
      Forall (fails_on s) ps ->
      transformer (choice ps) s
      = Ret (mkState (input s) (index s) VUndefined
               (Some (ParserError.mk "Unable to match with any parser"
                                     "choice" (index s) None None)))).
Proof.
  split.
  - intros pre p post out Hpre Hp Hok. simpl.
    rewrite (erroring_false _ Hs).
    now rewrite (choice_loop_first pre p post s out Hpre Hp Hok).
  - intros ps Hall. simpl. rewrite (erroring_false _ Hs).
    now rewrite (choice_loop_none ps s Hall).
Qed.

Lemma C6_choice_witness :
  transformer (choice ([str "a"] ++ str "b" :: [uint]))
              (mkState "b1" 0 VUndefined None)
  = Ret (mkState "b1" 1 (VStr "b") None).
Proof.
  apply (proj1 (C6_choice (mkState "b1" 0 VUndefined None) eq_refl)).
  - constructor; [|constructor]. eexists. split; [reflexivity|discriminate].
  - reflexivity.
  - reflexivity.
Defined.

(** *** many *)

Lemma many_loop_repeats p s outs f :
  repeats p s outs f ->
  forall fuel acc,
    (List.length outs < fuel)%nat ->
    many_loop fuel p s acc = Ret (f, acc ++ List.map result outs).
Proof.
  induction 1 as [s f Hp Hf | s out outs f Hp Hok _ IH]; intros fuel acc Hfuel;
    (destruct fuel as [|fuel]; [simpl in Hfuel; lia|]); simpl.
  - rewrite Hp. simpl. rewrite (erroring_true _ Hf). now rewrite app_nil_r.
  - rewrite Hp. simpl. rewrite (erroring_false _ Hok).
    rewrite IH by (simpl in Hfuel; lia). now rewrite <- app_assoc.
Qed.

(** X16: when the parser succeeds [outs] times and then fails with [f],
    and that is at least [min] times, many returns the results of the
    successful attempts in order, without error, at the index of [f]. *)
Lemma many_succeeds fuel p min s outs f :
  error s = None ->
  repeats p s outs f ->
  (List.length outs < fuel)%nat ->
  min <= Z.of_nat (List.length outs) ->
  transformer (many fuel p min) s
  = Ret (mkState (input f) (index f) (VArr (List.map result outs)) None).
Proof.
  intros Hs Hrun Hfuel Hmin. simpl. rewrite (erroring_false _ Hs).
  rewrite (many_loop_repeats p s outs f Hrun fuel [] Hfuel). simpl.
  rewrite length_map.
  destruct (Z.ltb_spec (Z.of_nat (List.length outs)) min); [lia|reflexivity].
Qed.

(** When fewer than [min] attempts succeed, many fails at the incoming
    index and reports the number of matches. *)
Lemma many_fails fuel p min s outs f :
  error s = None ->
  repeats p s outs f ->
  (List.length outs < fuel)%nat ->
  Z.of_nat (List.length outs) < min ->
  transformer (many fuel p min) s
  = Ret (errorify s (count_error "many" s min (List.map result outs))).
Proof.
  intros Hs Hrun Hfuel Hmin. simpl. rewrite (erroring_false _ Hs).
  rewrite (many_loop_repeats p s outs f Hrun fuel [] Hfuel). simpl.
  rewrite length_map.
  destruct (Z.ltb_spec (Z.of_nat (List.length outs)) min); [reflexivity|lia].
Qed.

(** C5 (the code departs from the specification): many(sequenceOf([a, b])) on
    ["aba"].  The first attempt succeeds and reaches index 2; the second
    attempt fails, but only after its ["a"] moved the index to 3; many
    succeeds with the one result and no error, at index 3, the index of
    the failed attempt, not at index 2 of the last successful match. *)
Theorem C5_many_index_of_failed_attempt :
  transformer (sequenceOf [str "a"; str "b"] (-1))
              (mkState "aba" 0 VUndefined None)
  = Ret (mkState "aba" 2 (VArr [VStr "a"; VStr "b"]) None) /\
  transformer (sequenceOf [str "a"; str "b"] (-1))
              (mkState "aba" 2 (VArr [VStr "a"; VStr "b"]) None)
  = Ret (mkState "aba" 3 VUndefined
           (Some (ParserError.mk "Unable to match 'b'" "sequenceOf" 3
                                 (Some 1) None))) /\
  transformer (many 5 (sequenceOf [str "a"; str "b"] (-1)) 0)
              (mkState "aba" 0 VUndefined None)
  = Ret (mkState "aba" 3 (VArr [VArr [VStr "a"; VStr "b"]]) None).
Proof. repeat split. Qed.

(** *** join, joinWJR *)

Lemma __join_loop_WJR ps j :
  forall acc,
    __join_loop ps j true false acc
    = acc ++ flat_map (fun p => [j; p]) ps.
Proof.
  induction ps as [|p ps IH]; intros acc; simpl.
  - now rewrite app_nil_r.
  - rewrite IH, <- !app_assoc. reflexivity.
Qed.

Lemma __join_loop_plain ps j :
  forall acc,
    __join_loop ps j false false acc
    = acc ++ List.map (after_joiner j) ps.
Proof.
  induction ps as [|p ps IH]; intros acc; simpl.
  - now rewrite app_nil_r.
  - rewrite IH, <- app_assoc. reflexivity.
Qed.

Lemma successful_eta s :
  error s = None -> mkState (input s) (index s) (result s) None = s.
Proof. destruct s; simpl; intros ->; reflexivity. Qed.

(** A joiner and a parser that succeed one after the other make
    [after_joiner] return the state of the parser: the result of the
    joiner is dropped. *)
Lemma after_joiner_succeeds j p s sj sp :
  error s = None ->
  transformer j s = Ret sj -> error sj = None ->
  transformer p sj = Ret sp -> error sp = None ->
  transformer (after_joiner j p) s = Ret sp.
Proof.
  intros Hs Hj Hsj Hp Hsp. unfold after_joiner, tuple.
  cbn [Parser.map transformer].
  rewrite (sequenceOf_all_succeed [j; p] (-1) s [sj; sp] Hs).
  - simpl. unfold final_state, final_index, resultify. simpl.
    now rewrite successful_eta.
  - repeat (econstructor; [eassumption|]). constructor.
  - repeat constructor; assumption.
Qed.

Lemma threaded_WJR j ps :
  forall s steps,
    joined j ps s steps ->
    threaded (flat_map (fun p => [j; p]) ps) s
             (flat_map (fun st => [fst st; snd st]) steps).
Proof.
  induction ps as [|p ps IH]; intros s steps Hrun; inversion Hrun; subst;
    simpl.
  - constructor.
  - econstructor; [eassumption|]. econstructor; [eassumption|]. now apply IH.
Qed.

Lemma threaded_plain j ps :
  forall s steps,
    error s = None ->
    joined j ps s steps ->
    threaded (List.map (after_joiner j) ps) s (List.map snd steps).
Proof.
  induction ps as [|p ps IH]; intros s steps Hs Hrun; inversion Hrun; subst;
    simpl.
  - constructor.
  - econstructor.
    + eapply after_joiner_succeeds; eassumption.
    + now apply IH.
Qed.

Lemma joined_all_succeed j ps :
  forall s steps,
    joined j ps s steps ->
    Forall (fun o => error o = None) (List.map snd steps) /\
    Forall (fun o => error o = None)
           (flat_map (fun st => [fst st; snd st]) steps).
Proof.
  induction ps as [|p ps IH]; intros s steps Hrun;
    inversion Hrun as [|? ? ? sj sp rest Hj Hsj Hp Hsp Hrest]; subst; simpl.
  - split; constructor.
  - destruct (IH _ _ Hrest) as [Ha Hb].
    split; repeat constructor; assumption.
Qed.

Lemma results_interleaved (steps : list (ParserState * ParserState)) :
  List.map result (flat_map (fun st => [fst st; snd st]) steps)
  = flat_map (fun st => [result (fst st); result (snd st)]) steps.
Proof.
  induction steps as [|st steps IH]; simpl; [reflexivity|]. now rewrite IH.
Qed.

Lemma final_index_interleaved (steps : list (ParserState * ParserState)) :
  forall d,
    final_index (flat_map (fun st => [fst st; snd st]) steps) d
    = final_index (List.map snd steps) d.
Proof.
  unfold final_index.
  induction steps as [|st steps IH]; intros d; simpl; [reflexivity|].
  apply IH.
Qed.

(** Whenever sequenceOf succeeds, whatever [min] allowed, its result
    lists the result fields of the states of its parsers in order. *)
Lemma sequenceOf_success_results ps min s outs out :
  error s = None ->
  threaded ps s outs ->
  transformer (sequenceOf ps min) s = Ret out ->
  error out = None ->
  result out = VArr (List.map result outs).
Proof.
  intros Hs Hrun Hout Hok. simpl in Hout. rewrite (erroring_false _ Hs) in Hout.
  rewrite (sequenceOf_loop_threaded ps (mkSeq s None 0 0 []) outs Hrun)
    in Hout.
  simpl in Hout. injection Hout as <-. revert Hok. unfold sequenceOf_finish.
  destruct (finalError _);
    [destruct (_ || _)|]; simpl; intros Hok; try discriminate;
    now rewrite sequenceOf_body_results.
Qed.

(** What [after_joiner] contributes on a successful state: the state of
    the main parser when joiner and parser both succeed, and otherwise a
    failed state without result; never the result of the joiner. *)
Lemma after_joiner_contributes j p s out :
  error s = None ->
  transformer (after_joiner j p) s = Ret out ->
  (exists sj,
      transformer j s = Ret sj /\ error sj = None /\
      transformer p sj = Ret out /\ error out = None) \/
  (error out <> None /\ result out = VUndefined).
Proof.
  intros Hs Hout. unfold after_joiner, tuple in Hout.
  cbn [Parser.map transformer] in Hout.
  destruct (transformer (sequenceOf [j; p] (-1)) s) as [mid| |] eqn:Hmid;
    try discriminate.
  destruct (sequenceOf_returns_threaded _ _ _ _ Hs Hmid) as (outs & Hrun).
  inversion Hrun as [|? ? ? sj outs1 Hj Hrun1]; subst.
  inversion Hrun1 as [|? ? ? sp outs2 Hp Hrun2]; subst.
  inversion Hrun2; subst.
  destruct (error sj) as [ej|] eqn:Esj;
    [|destruct (error sp) as [ep|] eqn:Esp].
  3: {
    rewrite (sequenceOf_all_succeed [j; p] (-1) s [sj; sp] Hs Hrun) in Hmid
      by (repeat constructor; assumption).
    injection Hmid as <-. simpl in Hout.
    unfold final_state, final_index, resultify in Hout.
    simpl in Hout. rewrite (successful_eta sp Esp) in Hout.
    injection Hout as <-. left. exists sj. repeat split; assumption.
  }
  all: destruct (sequenceOf_strict_fails [j; p] s [sj; sp] Hs Hrun)
         as (e & He & _);
    [ first [ apply Exists_cons_hd; congruence
            | apply Exists_cons_tl, Exists_cons_hd; congruence ]
    | rewrite He in Hmid; injection Hmid as <-; simpl in Hout;
      injection Hout as <-;
      right; split; [discriminate | reflexivity] ].
Qed.

(** C7: when the first main parser succeeds on a successful state and,
    for every further main parser, the joiner and then the parser succeed
    on the threaded states, join returns the results of the main parsers
    only and joinWJR returns them with the result of each joiner
    interleaved in front of the main result that follows it; both stop at
    the index of the last main parser. *)
Theorem C7_join_results (p : Parser) (ps : list Parser) (j : Parser)
  (min : Z) (s s1 : ParserState) (steps : list (ParserState * ParserState))
  (Hs : error s = None)
  (Hp : transformer p s = Ret s1)
  (Hs1 : error s1 = None)
  (Hrun : joined j ps s1 steps) :
  (exists out,
      transformer (join (p :: ps) j min) s = Ret out /\
      error out = None /\
      index out = final_index (List.map snd steps) (index s1) /\
      result out
      = VArr (result s1 :: List.map (fun st => result (snd st)) steps)) /\
  (exists out,
      transformer (joinWJR (p :: ps) j min) s = Ret out /\
      error out = None /\
      index out = final_index (List.map snd steps) (index s1) /\
      result out
      = VArr (result s1 ::
              flat_map (fun st => [result (fst st); result (snd st)]) steps)).
Proof.
  destruct (joined_all_succeed j ps s1 steps Hrun) as [Hplain HWJR].
  split; eexists; (split; [|split; [|split]]).
  - unfold join, __join. cbn [Parser.mapError transformer __join_loop].
    rewrite __join_loop_plain.
    rewrite (sequenceOf_all_succeed _ min s (s1 :: List.map snd steps) Hs).
    + reflexivity.
    + econstructor; [exact Hp|]. now apply threaded_plain.
    + constructor; assumption.
  - reflexivity.
  - reflexivity.
  - simpl. now rewrite map_map.
  - unfold joinWJR, __join. cbn [Parser.mapError transformer __join_loop].
    rewrite __join_loop_WJR.
    rewrite (sequenceOf_all_succeed _ min s
               (s1 :: flat_map (fun st => [fst st; snd st]) steps) Hs).
    + reflexivity.
    + econstructor; [exact Hp|]. now apply threaded_WJR.
    + constructor; assumption.
  - reflexivity.
  - simpl. apply final_index_interleaved.
  - simpl. now rewrite results_interleaved.
Qed.

Lemma C7_join_results_witness :
  (exists out,
      transformer (join [uint; uint] (str ",") (-1))
                  (mkState "1,2" 0 VUndefined None) = Ret out /\
      result out = VArr [VNum 1; VNum 2]) /\
  (exists out,
      transformer (joinWJR [uint; uint] (str ",") (-1))
                  (mkState "1,2" 0 VUndefined None) = Ret out /\
      result out = VArr [VNum 1; VStr ","; VNum 2]).
Proof.
  destruct (C7_join_results uint [uint] (str ",") (-1)
              (mkState "1,2" 0 VUndefined None)
              (mkState "1,2" 1 (VNum 1) None)
              [(mkState "1,2" 2 (VStr ",") None,
                mkState "1,2" 3 (VNum 2) None)]
              eq_refl eq_refl eq_refl
              (joined_cons (str ",") uint []
                 (mkState "1,2" 1 (VNum 1) None)
                 (mkState "1,2" 2 (VStr ",") None)
                 (mkState "1,2" 3 (VNum 2) None) []
                 eq_refl eq_refl eq_refl eq_refl (joined_nil _ _)))
    as [(o1 & H1 & _ & _ & R1) (o2 & H2 & _ & _ & R2)].
  split; [exists o1 | exists o2]; split; assumption.
Defined.

(** *** manyJoin, manyJoinWJR *)

Lemma succeeded_true s : error s = None -> succeeded s = true.
Proof. unfold succeeded. intros H. now rewrite (erroring_false _ H). Qed.

Lemma succeeded_false s : error s <> None -> succeeded s = false.
Proof. unfold succeeded. intros H. now rewrite (erroring_true _ H). Qed.

Lemma erroring_cases s :
  (erroring s = true /\ error s <> None) \/
  (erroring s = false /\ error s = None).
Proof.
  unfold erroring. destruct (error s); [left | right]; split; congruence.
Qed.

Lemma __manyJoin_joiner_step j jr v sj :
  transformer j (mj_nextState v) = Ret sj ->
  __manyJoin_joiner j jr false v
  = Ret (mkJoin sj (mj_done v || erroring sj) (mj_np v)
           (mj_results v
              ++ (if jr && succeeded sj then [result sj] else []))).
Proof.
  intros Hj. unfold __manyJoin_joiner, succeeded. rewrite Hj. simpl.
  destruct (erroring sj), jr; simpl;
    rewrite ?app_nil_r, ?orb_true_r, ?orb_false_r; reflexivity.
Qed.

Lemma __manyJoin_parser_step p v sp :
  transformer p (mj_nextState v) = Ret sp ->
  __manyJoin_parser p v
  = Ret (mkJoin sp (mj_done v || erroring sp)
           (mj_np v + Z.of_nat (List.length (filter succeeded [sp])))
           (mj_results v ++ (if succeeded sp then [result sp] else []))).
Proof.
  intros Hp. unfold __manyJoin_parser, succeeded. rewrite Hp. simpl.
  destruct (erroring sp); simpl;
    rewrite ?app_nil_r, ?orb_true_r, ?orb_false_r, ?Z.add_0_r; reflexivity.
Qed.

Lemma __manyJoin_loop_iterations p j jr prev its :
  iterations p j prev its ->
  forall fuel np acc,
    (List.length its <= fuel)%nat ->
    __manyJoin_loop fuel p j jr false (mkJoin prev false np acc)
    = Ret (after_iterations jr prev np acc its).
Proof.
  induction 1 as [prev sj sp Hj Hp Hfail | prev sj sp its Hj Hsj Hp Hsp _ IH];
    intros fuel np acc Hfuel;
    (destruct fuel as [|fuel]; [simpl in Hfuel; lia|]);
    cbn [__manyJoin_loop];
    rewrite (__manyJoin_joiner_step j jr (mkJoin prev false np acc) sj Hj);
    cbn [bind];
    rewrite (__manyJoin_parser_step p (mkJoin sj _ _ _) sp Hp);
    cbn [bind mj_done mj_np mj_results mj_nextState orb].
  - assert (Hdone : erroring sj || erroring sp = true).
    { destruct Hfail as [Hf|Hf]; rewrite (erroring_true _ Hf);
        [reflexivity | apply orb_true_r]. }
    rewrite Hdone. unfold after_iterations, final_state, iteration_results.
    simpl. rewrite !app_nil_r, <- app_assoc. reflexivity.
  - rewrite (erroring_false _ Hsj), (erroring_false _ Hsp). cbn [orb].
    rewrite IH by (simpl in Hfuel; lia).
    unfold after_iterations, final_state, iteration_results. simpl.
    rewrite (succeeded_true _ Hsp). simpl.
    f_equal. f_equal; [lia|]. now rewrite <- !app_assoc.
Qed.

Lemma __manyJoin_loop_returns fuel :
  forall p j jr prev np acc v,
    __manyJoin_loop fuel p j jr false (mkJoin prev false np acc) = Ret v ->
    exists its,
      iterations p j prev its /\
      (List.length its <= fuel)%nat /\
      v = after_iterations jr prev np acc its.
Proof.
  induction fuel as [|fuel IH]; intros p j jr prev np acc v Hloop;
    [discriminate|].
  cbn [__manyJoin_loop] in Hloop.
  destruct (transformer j prev) as [sj| |] eqn:Hj;
    [| unfold __manyJoin_joiner in Hloop; cbn [mj_nextState] in Hloop;
       rewrite Hj in Hloop; discriminate ..].
  rewrite (__manyJoin_joiner_step j jr (mkJoin prev false np acc) sj Hj)
    in Hloop.
  cbn [bind] in Hloop.
  destruct (transformer p sj) as [sp| |] eqn:Hp;
    [| unfold __manyJoin_parser in Hloop; cbn [mj_nextState] in Hloop;
       rewrite Hp in Hloop; discriminate ..].
  rewrite (__manyJoin_parser_step p (mkJoin sj _ _ _) sp Hp) in Hloop.
  cbn [bind mj_done mj_np mj_results mj_nextState orb] in Hloop.
  destruct (erroring_cases sj) as [[Ej Hsj]|[Ej Hsj]];
    [|destruct (erroring_cases sp) as [[Ep Hsp]|[Ep Hsp]]];
    rewrite Ej in Hloop; try rewrite Ep in Hloop; cbn [orb] in Hloop.
  - exists [(sj, sp)]. split; [|split].
    + now apply iterations_last; [| |left].
    + simpl. lia.
    + injection Hloop as <-.
      unfold after_iterations, final_state, iteration_results. simpl.
      now rewrite !app_nil_r, <- app_assoc.
  - exists [(sj, sp)]. split; [|split].
    + now apply iterations_last; [| |right].
    + simpl. lia.
    + injection Hloop as <-.
      unfold after_iterations, final_state, iteration_results. simpl.
      now rewrite !app_nil_r, <- app_assoc.
  - destruct (IH _ _ _ _ _ _ _ Hloop) as (its & Hits & Hlen & ->).
    exists ((sj, sp) :: its). split; [|split].
    + now apply iterations_more.
    + simpl. lia.
    + unfold after_iterations, final_state, iteration_results. simpl.
      rewrite (succeeded_true _ Hsp). simpl.
      f_equal; [lia|]. now rewrite <- !app_assoc.
Qed.

(** The variables with which a whole run leaves the loop. *)
Lemma __manyJoin_loop_run p j jr s first its :
  manyJoin_run p j s first its ->
  forall fuel,
    (List.length its < fuel)%nat ->
    __manyJoin_loop fuel p j jr true (mkJoin s false 0 [])
    = Ret (after_run jr first its).
Proof.
  intros Hrun fuel Hfuel. destruct fuel as [|fuel]; [lia|].
  cbn [__manyJoin_loop __manyJoin_joiner bind].
  destruct Hrun as [s first Hp Hfirst | s first its Hp Hfirst Hits];
    rewrite (__manyJoin_parser_step p (mkJoin s false 0 []) first Hp);
    cbn [bind mj_done mj_np mj_results mj_nextState orb app].
  - rewrite (erroring_true _ Hfirst). unfold after_run, main_matches, collected.
    simpl. rewrite (succeeded_false _ Hfirst). reflexivity.
  - rewrite (erroring_false _ Hfirst).
    rewrite (__manyJoin_loop_iterations p j jr first its Hits)
      by (simpl in Hfuel; lia).
    unfold after_iterations, after_run, main_matches, collected.
    cbn -[Z.add Z.of_nat]. rewrite (succeeded_true _ Hfirst).
    cbn -[Z.add Z.of_nat]. do 2 f_equal. lia.
Qed.

Lemma __manyJoin_loop_run_inv fuel p j jr s v :
  __manyJoin_loop fuel p j jr true (mkJoin s false 0 []) = Ret v ->
  exists first its,
    manyJoin_run p j s first its /\
    (List.length its < fuel)%nat /\
    v = after_run jr first its.
Proof.
  intros Hloop. destruct fuel as [|fuel]; [discriminate|].
  cbn [__manyJoin_loop __manyJoin_joiner bind] in Hloop.
  destruct (transformer p s) as [first| |] eqn:Hp;
    [| unfold __manyJoin_parser in Hloop; cbn [mj_nextState] in Hloop;
       rewrite Hp in Hloop; discriminate ..].
  rewrite (__manyJoin_parser_step p (mkJoin s false 0 []) first Hp) in Hloop.
  cbn [bind mj_done mj_np mj_results mj_nextState orb app] in Hloop.
  destruct (erroring_cases first) as [[E Hfirst]|[E Hfirst]];
    rewrite E in Hloop.
  - exists first, []. split; [|split].
    + now apply run_first_fails.
    + simpl. lia.
    + injection Hloop as <-. unfold after_run, main_matches, collected.
      simpl. rewrite (succeeded_false _ Hfirst). reflexivity.
  - destruct (__manyJoin_loop_returns _ _ _ _ _ _ _ _ Hloop)
      as (its & Hits & Hlen & ->).
    exists first, its. split; [|split].
    + now apply run_first_succeeds.
    + lia.
    + unfold after_iterations, after_run, main_matches, collected.
      cbn -[Z.add Z.of_nat]. rewrite (succeeded_true _ Hfirst).
      cbn -[Z.add Z.of_nat]. do 2 f_equal. lia.
Qed.

Lemma length_iteration_results jr its :
  List.length (flat_map (iteration_results jr) its)
  = ((if jr then List.length (filter succeeded (List.map fst its)) else O)
     + List.length (filter succeeded (List.map snd its)))%nat.
Proof.
  induction its as [|[sj sp] its IH]; [now destruct jr|].
  cbn [flat_map List.map filter fst snd]. rewrite length_app, IH.
  unfold iteration_results. cbn [fst snd].
  destruct jr, (succeeded sj), (succeeded sp); simpl; lia.
Qed.

Lemma length_collected jr first its :
  Z.of_nat (List.length (collected jr first its))
  = main_matches first its + (if jr then joiner_matches its else 0).
Proof.
  unfold collected, main_matches, joiner_matches.
  rewrite length_app, length_iteration_results.
  cbn [List.map filter]. destruct jr, (succeeded first); simpl List.length; lia.
Qed.

(** What [__manyJoin] returns for a whole run. *)
Lemma __manyJoin_run fuel p j min jr s first its :
  error s = None ->
  manyJoin_run p j s first its ->
  (List.length its < fuel)%nat ->
  transformer (__manyJoin fuel p j min jr) s
  = Ret (if main_matches first its <? min
         then errorify s
                (count_error "manyJoin" s min (collected jr first its))
         else resultify (final_state (List.map snd its) first)
                        (VArr (collected jr first its))).
Proof.
  intros Hs Hrun Hfuel. cbn [__manyJoin transformer].
  rewrite (erroring_false _ Hs).
  rewrite (__manyJoin_loop_run p j jr s first its Hrun fuel Hfuel).
  cbn [bind after_run mj_np mj_results mj_nextState].
  now destruct (main_matches first its <? min).
Qed.

Lemma __manyJoin_succeeds_iff fuel p j min jr s (Hs : error s = None) :
  (forall first its,
      manyJoin_run p j s first its ->
      (List.length its < fuel)%nat ->
      exists out,
        transformer (__manyJoin fuel p j min jr) s = Ret out /\
        (error out = None <-> min <= main_matches first its)) /\
  (forall out,
      transformer (__manyJoin fuel p j min jr) s = Ret out ->
      exists first its,
        manyJoin_run p j s first its /\
        (error out = None <-> min <= main_matches first its)).
Proof.
  assert (Hiff : forall first its,
             error (if main_matches first its <? min
                    then errorify s
                           (count_error "manyJoin" s min
                                        (collected jr first its))
                    else resultify (final_state (List.map snd its) first)
                                   (VArr (collected jr first its))) = None
             <-> min <= main_matches first its).
  { intros first its.
    destruct (Z.ltb_spec (main_matches first its) min); simpl;
      split; intros; try lia; try discriminate; reflexivity. }
  split.
  - intros first its Hrun Hfuel. eexists. split.
    + exact (__manyJoin_run fuel p j min jr s first its Hs Hrun Hfuel).
    + apply Hiff.
  - intros out Hout. cbn [__manyJoin transformer] in Hout.
    rewrite (erroring_false _ Hs) in Hout.
    destruct (__manyJoin_loop fuel p j jr true (mkJoin s false 0 []))
      as [v| |] eqn:Hloop; try discriminate.
    destruct (__manyJoin_loop_run_inv _ _ _ _ _ _ Hloop)
      as (first & its & Hrun & Hlen & ->).
    exists first, its. split; [exact Hrun|].
    cbn [bind after_run mj_np mj_results mj_nextState] in Hout.
    rewrite <- (Hiff first its).
    destruct (main_matches first its <? min); injection Hout as <-;
      reflexivity.
Qed.

(** C8: on a successful state the loop of manyJoin and of manyJoinWJR
    proceeds as [manyJoin_run] describes: the first turn runs the bare
    main parser, every later turn runs the joiner and then the main
    parser, and the turn in which one of them first fails is the last.
    With fuel for its turns every such run returns, every returned state
    comes from such a run, and the returned state is successful exactly
    when the number of successful main-parser matches of the run is at
    least [min]. *)
Theorem C8_manyJoin_alternation (fuel : nat) (p j : Parser) (min : Z)
  (s : ParserState) (Hs : error s = None) :
  ((forall first its,
       manyJoin_run p j s first its ->
       (List.length its < fuel)%nat ->
       exists out,
         transformer (manyJoin fuel p j min) s = Ret out /\
         (error out = None <-> min <= main_matches first its)) /\
   (forall out,
       transformer (manyJoin fuel p j min) s = Ret out ->
       exists first its,
         manyJoin_run p j s first its /\
         (error out = None <-> min <= main_matches first its))) /\
  ((forall first its,
       manyJoin_run p j s first its ->
       (List.length its < fuel)%nat ->
       exists out,
         transformer (manyJoinWJR fuel p j min) s = Ret out /\
         (error out = None <-> min <= main_matches first its)) /\
   (forall out,
       transformer (manyJoinWJR fuel p j min) s = Ret out ->
       exists first its,
         manyJoin_run p j s first its /\
         (error out = None <-> min <= main_matches first its))).
Proof.
  split; [apply (__manyJoin_succeeds_iff fuel p j min false s Hs)
         | apply (__manyJoin_succeeds_iff fuel p j min true s Hs)].
Qed.

Lemma csv_run :
  manyJoin_run uint (str ",") (csv 0 VUndefined) (csv 1 (VNum 1)) csv_turns.
Proof.
  apply run_first_succeeds; [reflexivity | reflexivity |].
  apply (iterations_more uint (str ",") (csv 1 (VNum 1))
           (csv 2 (VStr ",")) (csv 3 (VNum 2)));
    [reflexivity | reflexivity | reflexivity | reflexivity |].
  apply (iterations_last uint (str ",") (csv 3 (VNum 2))
           (csv 4 (VStr ",")) csv_failed);
    [reflexivity | reflexivity | right; discriminate].
Qed.

Lemma C8_manyJoin_alternation_witness :
  exists out,
    transformer (manyJoin 5 uint (str ",") 2) (csv 0 VUndefined) = Ret out /\
    (error out = None <-> 2 <= main_matches (csv 1 (VNum 1)) csv_turns).
Proof.
  exact (proj1 (proj1 (C8_manyJoin_alternation 5 uint (str ",") 2
                         (csv 0 VUndefined) eq_refl))
           (csv 1 (VNum 1)) csv_turns csv_run
           (ltac:(vm_compute; lia))).
Defined.

(** C10: when a run of manyJoinWJR from a successful state has fewer
    than [min] successful main-parser matches, the error it returns has
    [nmatches] equal to the length of the accumulated results, which is
    the number of successful main matches plus the number of successful
    joiner matches, hence larger than the number of main matches as soon
    as one joiner succeeded; its combinator name is manyJoin, and so is
    the one of manyJoin itself. *)
Theorem C10_manyJoin_nmatches (fuel : nat) (p j : Parser) (min : Z)
  (s first : ParserState) (its : list (ParserState * ParserState))
  (Hs : error s = None)
  (Hrun : manyJoin_run p j s first its)
  (Hfuel : (List.length its < fuel)%nat)
  (Hfew : main_matches first its < min) :
  (exists out e,
      transformer (manyJoinWJR fuel p j min) s = Ret out /\
      error out = Some e /\
      ParserError.nmatches e
      = Some (Z.of_nat (List.length (collected true first its))) /\
      ParserError.nmatches e
      = Some (main_matches first its + joiner_matches its) /\
      (1 <= joiner_matches its ->
       exists n, ParserError.nmatches e = Some n /\
                 main_matches first its < n) /\
      ParserError.combinator e = "manyJoin") /\
  (exists out e,
      transformer (manyJoin fuel p j min) s = Ret out /\
      error out = Some e /\
      ParserError.combinator e = "manyJoin").
Proof.
  assert (Hlt : (main_matches first its <? min) = true)
    by (apply Z.ltb_lt; exact Hfew).
  split; do 2 eexists.
  - split; [|split; [|split; [|split; [|split]]]].
    + unfold manyJoinWJR. rewrite (__manyJoin_run _ _ _ _ _ _ _ _ Hs Hrun Hfuel).
      rewrite Hlt. reflexivity.
    + reflexivity.
    + reflexivity.
    + simpl. now rewrite (length_collected true).
    + intros Hj. eexists. split; [reflexivity|].
      rewrite (length_collected true). lia.
    + reflexivity.
  - split; [|split].
    + unfold manyJoin. rewrite (__manyJoin_run _ _ _ _ _ _ _ _ Hs Hrun Hfuel).
      rewrite Hlt. reflexivity.
    + reflexivity.
    + reflexivity.
Qed.

Lemma C10_manyJoin_nmatches_witness :
  exists out e,
    transformer (manyJoinWJR 5 uint (str ",") 3) (csv 0 VUndefined)
    = Ret out /\
    error out = Some e /\
    ParserError.nmatches e = Some 4 /\
    main_matches (csv 1 (VNum 1)) csv_turns = 2.
Proof.
  destruct (C10_manyJoin_nmatches 5 uint (str ",") 3
              (csv 0 VUndefined) (csv 1 (VNum 1)) csv_turns
              eq_refl csv_run (ltac:(vm_compute; lia)) eq_refl)
    as [(out & e & Hout & He & Hn & _) _].
  exists out, e. repeat split; assumption.
Defined.

(** *** contextual *)

Lemma contextual_drives fuel g s :
  error s = None ->
  transformer (contextual fuel g) s
  = drive fuel g (generator g) VUndefined (resultify s VUndefined).
Proof.
  intros _. reflexivity.
Qed.

(** One resumption that yields a parser which succeeds: the rest of the
    chain runs on the state it returned, and a failure of the rest is
    stamped once more. *)
Lemma drive_yield fuel g it sent st p it1 st1 :
  next g it sent = IterYield (YParser p) it1 ->
  transformer p st = Ret st1 -> error st1 = None ->
  drive (S fuel) g it sent st
  = (out <- drive fuel g it1 (result st1) st1 ;;
     if erroring out then Ret (errorify out (restamp "contextual" out))
     else Ret out).
Proof.
  intros Hnext Hp Hok. unfold drive. cbn [runStep]. rewrite Hnext.
  cbn [bind Parser.mapError Parser.chain transformer]. rewrite Hp.
  cbn [bind]. rewrite (erroring_false _ Hok). reflexivity.
Qed.

Lemma drive_throws g it sent st n it' sent' st' :
  advances g it sent st n it' sent' st' ->
  forall x it'' fuel,
    next g it' sent' = IterYield (YOther x) it'' ->
    (n < fuel)%nat ->
    drive fuel g it sent st
    = Throw "contextual: yielded values must always be parsers".
Proof.
  induction 1 as [it sent st | it sent st p it1 st1 n it' sent' st'
                                  Hnext Hp Hok _ IH];
    intros x it'' fuel Hbad Hfuel; (destruct fuel as [|fuel]; [lia|]).
  - unfold drive. cbn [runStep]. rewrite Hbad. reflexivity.
  - rewrite (drive_yield fuel g it sent st p it1 st1 Hnext Hp Hok).
    rewrite (IH x it'' fuel Hbad) by lia. reflexivity.
Qed.

Lemma drive_fails g it sent st n it' sent' st' :
  advances g it sent st n it' sent' st' ->
  forall p it'' failed e fuel,
    next g it' sent' = IterYield (YParser p) it'' ->
    transformer p st' = Ret failed -> error failed = Some e ->
    (n < fuel)%nat ->
    drive fuel g it sent st
    = Ret (errorify failed (ParserError.stamp e "contextual")).
Proof.
  induction 1 as [it sent st | it sent st q it1 st1 n it' sent' st'
                                  Hnext Hq Hok _ IH];
    intros p it'' failed e fuel Hyield Hp He Hfuel;
    (destruct fuel as [|fuel]; [lia|]).
  - unfold drive. cbn [runStep]. rewrite Hyield.
    cbn [bind Parser.mapError Parser.chain transformer]. rewrite Hp.
    cbn [bind]. rewrite (erroring_some _ _ He). cbn [bind].
    rewrite (erroring_some _ _ He). unfold restamp. now rewrite He.
  - rewrite (drive_yield fuel g it sent st q it1 st1 Hnext Hq Hok).
    rewrite (IH p it'' failed e fuel Hyield Hp He) by lia. reflexivity.
Qed.

Lemma drive_returns g it sent st n it' sent' st' :
  advances g it sent st n it' sent' st' ->
  forall value fuel,
    next g it' sent' = IterDone value ->
    error st' = None ->
    (n < fuel)%nat ->
    drive fuel g it sent st = Ret (resultify st' value).
Proof.
  induction 1 as [it sent st | it sent st q it1 st1 n it' sent' st'
                                  Hnext Hq Hok _ IH];
    intros value fuel Hdone Hst Hfuel; (destruct fuel as [|fuel]; [lia|]).
  - unfold drive. cbn [runStep]. rewrite Hdone.
    cbn [bind succeed transformer]. now rewrite (erroring_false _ Hst).
  - rewrite (drive_yield fuel g it sent st q it1 st1 Hnext Hq Hok).
    rewrite (IH value fuel Hdone Hst) by lia. reflexivity.
Qed.

(** C9: run contextual on a successful state and let the step function
    be resumed after [n] yielded parsers have succeeded.  If it now
    yields a value that is not a parser, the transformer throws: no parse
    state is returned.  If it yields a parser that fails, the transformer
    returns the failed state with the combinator name of its error
    re-stamped to contextual. *)
Theorem C9_contextual_failures (fuel : nat) (g : Generator Value Value)
  (s : ParserState) (n : nat) (it : iterator g) (sent : Value)
  (st : ParserState)
  (Hs : error s = None)
  (Hreach : advances g (generator g) VUndefined (resultify s VUndefined)
                     n it sent st)
  (Hfuel : (n < fuel)%nat) :
  (forall x it',
      next g it sent = IterYield (YOther x) it' ->
      transformer (contextual fuel g) s
      = Throw "contextual: yielded values must always be parsers" /\
      forall out, transformer (contextual fuel g) s <> Ret out) /\
  (forall p it' failed e,
      next g it sent = IterYield (YParser p) it' ->
      transformer p st = Ret failed -> error failed = Some e ->
      exists out,
        transformer (contextual fuel g) s = Ret out /\
        error out = Some (ParserError.stamp e "contextual") /\
        index out = index failed).
Proof.
  split.
  - intros x it' Hbad.
    assert (Hthrow : transformer (contextual fuel g) s
                     = Throw "contextual: yielded values must always be parsers").
    { rewrite (contextual_drives fuel g s Hs).
      exact (drive_throws g _ _ _ n it sent st Hreach x it' fuel Hbad Hfuel). }
    split; [exact Hthrow|]. intros out. rewrite Hthrow. discriminate.
  - intros p it' failed e Hyield Hp He. eexists. split; [|split].
    + rewrite (contextual_drives fuel g s Hs).
      exact (drive_fails g _ _ _ n it sent st Hreach p it' failed e fuel
               Hyield Hp He Hfuel).
    + reflexivity.
    + reflexivity.
Qed.

Lemma C9_contextual_failures_witness :
  transformer (contextual 3 misused) (mkState "7" 0 VUndefined None)
  = Throw "contextual: yielded values must always be parsers" /\
  exists out,
    transformer (contextual 3 misused) (mkState "x" 0 VUndefined None)
    = Ret out /\
    error out
    = Some (ParserError.mk "Unable to match an unsigned integer"
                           "contextual" 0 None None).
Proof.
  split.
  - refine (proj1 (proj1 (C9_contextual_failures 3 misused
                            (mkState "7" 0 VUndefined None) 1 true (VNum 7)
                            (mkState "7" 1 (VNum 7) None)
                            eq_refl _ (ltac:(lia)))
                     (VNum 7) true eq_refl)).
    apply (advances_more misused false VUndefined
             (mkState "7" 0 VUndefined None) uint true
             (mkState "7" 1 (VNum 7) None) O);
      [reflexivity | reflexivity | reflexivity | apply advances_none].
  - destruct (proj2 (C9_contextual_failures 3 misused
                       (mkState "x" 0 VUndefined None) O false VUndefined
                       (mkState "x" 0 VUndefined None)
                       eq_refl (advances_none misused _ _ _) (ltac:(lia)))
                uint true
                (mkState "x" 0 VUndefined
                   (Some (ParserError.mk "Unable to match an unsigned integer"
                                         "uint" 0 None None)))
                (ParserError.mk "Unable to match an unsigned integer"
                                "uint" 0 None None)
                eq_refl eq_refl eq_refl)
      as (out & Hout & Herr & _).
    exists out. split; assumption.
Defined.

(** ** Further properties *)

(** *** sequenceOf: the outcome of a whole run *)

Lemma sequenceOf_body_finalError outs :
  forall v,
    finalError (fold_left sequenceOf_body outs v)
    = last_error outs (finalError v).
Proof.
  unfold last_error.
  induction outs as [|o outs IH]; intros v; cbn [fold_left]; [reflexivity|].
  rewrite IH. unfold sequenceOf_body. now destruct (error o).
Qed.

Lemma sequenceOf_body_psucceed outs :
  forall v,
    psucceed (fold_left sequenceOf_body outs v) = psucceed v + successes outs.
Proof.
  unfold successes.
  induction outs as [|o outs IH]; intros v; cbn [fold_left filter].
  - simpl. lia.
  - rewrite IH. unfold sequenceOf_body, succeeded, erroring.
    destruct (error o); cbn -[Z.of_nat Z.add]; lia.
Qed.

(** What sequenceOf returns for a run of its parsers, in terms of the
    run alone. *)
Lemma sequenceOf_outcome ps min s outs :
  error s = None ->
  threaded ps s outs ->
  transformer (sequenceOf ps min) s
  = Ret (match last_error outs None with
         | Some fe =>
             if (successes outs <? min) || (min =? -1)
             then errorify (final_state outs s)
                    (ParserError.stamp_nparser fe "sequenceOf"
                                               (successes outs))
             else update (final_state outs s) (last_success_index outs 0)
                         (VArr (List.map result outs))
         | None => update (final_state outs s) (last_success_index outs 0)
                          (VArr (List.map result outs))
         end).
Proof.
  intros Hs Hrun. simpl. rewrite (erroring_false _ Hs).
  rewrite (sequenceOf_loop_threaded ps (mkSeq s None 0 0 []) outs Hrun).
  simpl. unfold sequenceOf_finish.
  rewrite sequenceOf_body_finalError, sequenceOf_body_psucceed,
    sequenceOf_body_nextState, sequenceOf_body_lastIndex,
    sequenceOf_body_results.
  reflexivity.
Qed.

Lemma last_error_none outs :
  forall d,
    last_error outs d = None <->
    d = None /\ Forall (fun o => error o = None) outs.
Proof.
  unfold last_error.
  induction outs as [|o outs IH]; intros d; cbn [fold_left].
  - split; [intros ->; split; [reflexivity|constructor] | now intros [-> _]].
  - rewrite IH. destruct (error o) as [e|] eqn:Ho; split.
    + intros [Hd _]. discriminate.
    + intros [_ Hall]. inversion Hall; congruence.
    + intros [-> Hall]. split; [reflexivity|]. now constructor.
    + intros [-> Hall]. inversion Hall; subst. now split.
Qed.

(** X1: on a successful state sequenceOf succeeds exactly when no parser
    of the run failed, or [min] is not -1 and at least [min] parsers
    succeeded; a successful outcome has one result entry per parser, in
    order, and stands at the index of the last parser that succeeded. *)
Theorem sequenceOf_succeeds_iff (ps : list Parser) (min : Z)
  (s : ParserState) (outs : list ParserState)
  (Hs : error s = None)
  (Hrun : threaded ps s outs) :
  exists out,
    transformer (sequenceOf ps min) s = Ret out /\
    (error out = None <->
     Forall (fun o => error o = None) outs \/
     (min <> -1 /\ min <= successes outs)) /\
    (error out = None ->
     result out = VArr (List.map result outs) /\
     List.length (List.map result outs) = List.length ps /\
     index out = last_success_index outs 0).
Proof.
  eexists. split; [exact (sequenceOf_outcome ps min s outs Hs Hrun)|].
  assert (Hlen : List.length (List.map result outs) = List.length ps).
  { rewrite length_map. clear Hs. induction Hrun; simpl; congruence. }
  destruct (last_error outs None) as [fe|] eqn:Hfe.
  - assert (Hnot : ~ Forall (fun o => error o = None) outs).
    { intros Hall.
      assert (last_error outs None = None)
        by (apply last_error_none; now split).
      congruence. }
    destruct (Z.ltb_spec (successes outs) min);
      destruct (Z.eqb_spec min (-1)); simpl; split;
      try (intros; discriminate);
      try (split; [intros _; right; split; assumption | reflexivity]);
      try (split; [intros _; right; split; lia | reflexivity]);
      try (intros [_ _]; repeat split; assumption);
      try (intros _; repeat split; assumption);
      try (split; [discriminate | intros [Hall | [Hm Hle]];
                                  [contradiction | lia]]).
  - apply last_error_none in Hfe. destruct Hfe as [_ Hall]. simpl. split.
    + split; [intros _; now left | reflexivity].
    + intros _. repeat split. exact Hlen.
Qed.

Lemma ac_run :
  threaded [str "a"; str "b"] (mkState "ac" 0 VUndefined None)
           [mkState "ac" 1 (VStr "a") None;
            mkState "ac" 1 VUndefined
              (Some (ParserError.mk "Unable to match 'b'" "str" 1
                                    None None))].
Proof. repeat (econstructor; [reflexivity|]). constructor. Qed.

Lemma sequenceOf_succeeds_iff_witness :
  exists out,
    transformer (sequenceOf [str "a"; str "b"] 1)
                (mkState "ac" 0 VUndefined None) = Ret out /\
    error out = None.
Proof.
  destruct (sequenceOf_succeeds_iff [str "a"; str "b"] 1
              (mkState "ac" 0 VUndefined None)
              [mkState "ac" 1 (VStr "a") None;
               mkState "ac" 1 VUndefined
                 (Some (ParserError.mk "Unable to match 'b'" "str" 1
                                       None None))]
              eq_refl ac_run)
    as (out & Hout & Hiff & _).
  exists out. split; [exact Hout|].
  apply Hiff. right. split; [discriminate|]. vm_compute. discriminate.
Defined.

(** X2: when sequenceOf fails on a successful state, its error is the
    error of the last parser of the run that failed, with the combinator
    name sequenceOf and [nparser] the number of parsers that succeeded;
    the failed state stands at the index of the last state of the run. *)
Theorem sequenceOf_error_shape (ps : list Parser) (min : Z)
  (s out : ParserState) (outs : list ParserState) (e : ParserError)
  (Hs : error s = None)
  (Hrun : threaded ps s outs)
  (Hout : transformer (sequenceOf ps min) s = Ret out)
  (He : error out = Some e) :
  exists fe,
    last_error outs None = Some fe /\
    e = ParserError.mk (ParserError.info fe) "sequenceOf"
                       (ParserError.index fe) (Some (successes outs))
                       (ParserError.nmatches fe) /\
    index out = index (final_state outs s).
Proof.
  rewrite (sequenceOf_outcome ps min s outs Hs Hrun) in Hout.
  injection Hout as <-. revert He.
  destruct (last_error outs None) as [fe|]; [|discriminate].
  destruct (_ || _); [|discriminate].
  simpl. intros [= <-]. exists fe. repeat split.
Qed.

Lemma sequenceOf_error_shape_witness :
  exists fe,
    last_error
      [mkState "ac" 1 (VStr "a") None;
       mkState "ac" 1 VUndefined
         (Some (ParserError.mk "Unable to match 'b'" "str" 1 None None))]
      None = Some fe /\
    ParserError.mk "Unable to match 'b'" "sequenceOf" 1 (Some 1) None
    = ParserError.mk (ParserError.info fe) "sequenceOf"
                     (ParserError.index fe) (Some 1) (ParserError.nmatches fe).
Proof.
  destruct (sequenceOf_error_shape [str "a"; str "b"] (-1)
              (mkState "ac" 0 VUndefined None)
              (mkState "ac" 1 VUndefined
                 (Some (ParserError.mk "Unable to match 'b'" "sequenceOf" 1
                                       (Some 1) None)))
              [mkState "ac" 1 (VStr "a") None;
               mkState "ac" 1 VUndefined
                 (Some (ParserError.mk "Unable to match 'b'" "str" 1
                                       None None))]
              (ParserError.mk "Unable to match 'b'" "sequenceOf" 1
                              (Some 1) None)
              eq_refl ac_run eq_refl eq_refl)
    as (fe & Hfe & He & _).
  exists fe. split; [exact Hfe | exact He].
Defined.

(** *** sequenceOf: the first failure *)

Lemma final_state_app outs outs' s :
  final_state (outs ++ outs') s = final_state outs' (final_state outs s).
Proof. unfold final_state. apply fold_left_app. Qed.

Lemma threaded_app ps :
  forall s outs qs outs',
    threaded ps s outs ->
    threaded qs (final_state outs s) outs' ->
    threaded (ps ++ qs) s (outs ++ outs').
Proof.
  induction ps as [|p ps IH]; intros s outs qs outs' Hps Hqs;
    inversion Hps; subst; simpl.
  - exact Hqs.
  - econstructor; [eassumption|]. now apply IH.
Qed.

Lemma threaded_length ps s outs :
  threaded ps s outs -> List.length outs = List.length ps.
Proof. induction 1; simpl; congruence. Qed.

Lemma threaded_short_circuits post f :
  Forall short_circuits post ->
  error f <> None ->
  threaded post f (repeat f (List.length post)).
Proof.
  intros Hpost Hf. induction Hpost as [|q post Hq _ IH]; simpl.
  - constructor.
  - econstructor; [exact (Hq f Hf) | exact IH].
Qed.

Lemma last_error_repeat f e n :
  error f = Some e -> forall d, last_error (f :: repeat f n) d = Some e.
Proof.
  intros Hf. unfold last_error.
  induction n as [|n IH]; intros d; simpl in *; rewrite Hf; [reflexivity|].
  specialize (IH (Some e)). now rewrite Hf in IH.
Qed.

Lemma final_state_repeat f n s : final_state (f :: repeat f n) s = f.
Proof.
  unfold final_state. simpl. induction n as [|n IH]; simpl; auto.
Qed.

Lemma successes_first_failure outs f n :
  Forall (fun o => error o = None) outs ->
  error f <> None ->
  successes (outs ++ f :: repeat f n) = Z.of_nat (List.length outs).
Proof.
  intros Hall Hf. unfold successes. f_equal.
  rewrite filter_app, length_app.
  replace (filter succeeded (f :: repeat f n)) with (@nil ParserState).
  - simpl. rewrite Nat.add_0_r. f_equal.
    induction Hall as [|o outs Ho _ IH]; simpl; [reflexivity|].
    rewrite (succeeded_true _ Ho). simpl. now rewrite IH.
  - change (f :: repeat f n) with (repeat f (S n)).
    induction (S n) as [|m IH]; simpl; [reflexivity|].
    now rewrite (succeeded_false _ Hf).
Qed.

(** X3: when the parsers before [p] succeed, [p] fails and the parsers
    after [p] hand an erroring state back unchanged, a sequenceOf that
    does not tolerate the failure (min is -1, or more than the number of
    parsers before [p]) reports the failure of [p]: the error of [p]
    under the name sequenceOf, [nparser] the number of parsers before
    [p], in the state where [p] failed. *)
Theorem sequenceOf_reports_first_failure (pre : list Parser) (p : Parser)
  (post : list Parser) (min : Z) (s f : ParserState)
  (outs : list ParserState) (e : ParserError)
  (Hs : error s = None)
  (Hpre : threaded pre s outs)
  (Hok : Forall (fun o => error o = None) outs)
  (Hp : transformer p (final_state outs s) = Ret f)
  (Hf : error f = Some e)
  (Hpost : Forall short_circuits post)
  (Hmin : Z.of_nat (List.length pre) < min \/ min = -1) :
  transformer (sequenceOf (pre ++ p :: post) min) s
  = Ret (mkState (input f) (index f) VUndefined
           (Some (ParserError.mk (ParserError.info e) "sequenceOf"
                                 (ParserError.index e)
                                 (Some (Z.of_nat (List.length pre)))
                                 (ParserError.nmatches e)))).
Proof.
  assert (Hfail : error f <> None) by congruence.
  assert (Hrun : threaded (pre ++ p :: post) s
                          (outs ++ f :: repeat f (List.length post))).
  { apply threaded_app; [exact Hpre|].
    econstructor; [exact Hp|]. now apply threaded_short_circuits. }
  rewrite (sequenceOf_outcome _ min s _ Hs Hrun).
  assert (Hlast : last_error (outs ++ f :: repeat f (List.length post)) None
                  = Some e).
  { unfold last_error. rewrite fold_left_app.
    apply (last_error_repeat f e _ Hf). }
  rewrite Hlast, final_state_app, final_state_repeat.
  rewrite (successes_first_failure outs f _ Hok Hfail).
  rewrite (threaded_length _ _ _ Hpre).
  replace ((Z.of_nat (List.length pre) <? min) || (min =? -1)) with true.
  - reflexivity.
  - symmetry. apply orb_true_iff.
    destruct Hmin as [Hlt| ->]; [left; now apply Z.ltb_lt | right; reflexivity].
Qed.

Lemma sequenceOf_reports_first_failure_witness :
  transformer (sequenceOf ([uint] ++ str "," :: [uint; str ";"]) (-1))
              (mkState "1;2" 0 VUndefined None)
  = Ret (mkState "1;2" 1 VUndefined
           (Some (ParserError.mk "Unable to match ','" "sequenceOf" 1
                                 (Some 1) None))).
Proof.
  apply (sequenceOf_reports_first_failure [uint] (str ",") [uint; str ";"]
           (-1) (mkState "1;2" 0 VUndefined None)
           (mkState "1;2" 1 VUndefined
              (Some (ParserError.mk "Unable to match ','" "str" 1 None None)))
           [mkState "1;2" 1 (VNum 1) None]
           (ParserError.mk "Unable to match ','" "str" 1 None None)
           eq_refl
           (threaded_cons uint [] (mkState "1;2" 0 VUndefined None)
              (mkState "1;2" 1 (VNum 1) None) [] eq_refl (threaded_nil _))).
  - repeat constructor.
  - reflexivity.
  - reflexivity.
  - repeat constructor; intros st Hst; simpl; now rewrite erroring_true.
  - right. reflexivity.
Defined.

(** *** many *)

(** X4: whatever the parser does, a many that returns from a successful
    state either succeeds with an array of at least [min] results, or
    fails in the incoming state itself, nothing consumed, with an error
    named many whose [nmatches] is a number of matches below [min]. *)
Theorem many_outcome_shape (fuel : nat) (p : Parser) (min : Z)
  (s out : ParserState)
  (Hs : error s = None)
  (Hout : transformer (many fuel p min) s = Ret out) :
  (error out = None /\
   exists l, result out = VArr l /\ min <= Z.of_nat (List.length l)) \/
  (exists e n,
      error out = Some e /\
      ParserError.combinator e = "many" /\
      ParserError.nmatches e = Some n /\ 0 <= n < min /\
      ParserError.index e = index s /\
      index out = index s /\ input out = input s).
Proof.
  simpl in Hout. rewrite (erroring_false _ Hs) in Hout.
  destruct (many_loop fuel p s []) as [[last acc]| |]; try discriminate.
  simpl in Hout.
  destruct (Z.ltb_spec (Z.of_nat (List.length acc)) min);
    injection Hout as <-.
  - right. do 2 eexists. simpl. repeat split; try reflexivity; lia.
  - left. simpl. split; [reflexivity|]. exists acc. split; [reflexivity|lia].
Qed.

Lemma many_outcome_shape_witness :
  exists l,
    VArr [VStr "a"; VStr "a"] = VArr l /\ 2 <= Z.of_nat (List.length l).
Proof.
  destruct (many_outcome_shape 5 (str "a") 2
              (mkState "aab" 0 VUndefined None)
              (mkState "aab" 2 (VArr [VStr "a"; VStr "a"]) None)
              eq_refl eq_refl)
    as [[_ Hres] | (e & n & He & _)].
  - exact Hres.
  - discriminate He.
Defined.

Lemma many_loop_never_exits p :
  always_succeeds p ->
  forall fuel st acc,
    error st = None -> many_loop fuel p st acc = OutOfFuel.
Proof.
  intros Hp. induction fuel as [|fuel IH]; intros st acc Hst; simpl;
    [reflexivity|].
  destruct (Hp st Hst) as (out & -> & Hok). simpl.
  rewrite (erroring_false _ Hok). now apply IH.
Qed.

(** X5: given a parser that succeeds on every successful state, the loop
    of many never ends: no amount of fuel makes it return. *)
Theorem many_never_returns (p : Parser) (min : Z) (s : ParserState)
  (Hp : always_succeeds p)
  (Hs : error s = None) :
  forall fuel, transformer (many fuel p min) s = OutOfFuel.
Proof.
  intros fuel. simpl. rewrite (erroring_false _ Hs).
  now rewrite (many_loop_never_exits p Hp fuel s [] Hs).
Qed.

Lemma succeed_always_succeeds value : always_succeeds (succeed value).
Proof.
  intros st Hst. exists (resultify st value). simpl.
  now rewrite (erroring_false _ Hst).
Qed.

Lemma many_never_returns_witness :
  transformer (many 1000 (succeed (VNum 0)) 0)
              (mkState "abc" 0 VUndefined None) = OutOfFuel.
Proof.
  exact (many_never_returns (succeed (VNum 0)) 0
           (mkState "abc" 0 VUndefined None)
           (succeed_always_succeeds (VNum 0)) eq_refl 1000%nat).
Defined.

(** *** between *)

Lemma sequenceOf_error_named ps min s out e :
  error s = None ->
  transformer (sequenceOf ps min) s = Ret out ->
  error out = Some e ->
  ParserError.combinator e = "sequenceOf".
Proof.
  intros Hs Hout He. simpl in Hout. rewrite (erroring_false _ Hs) in Hout.
  destruct (sequenceOf_loop ps _) as [v| |]; try discriminate.
  simpl in Hout. injection Hout as <-. revert He. unfold sequenceOf_finish.
  destruct (finalError v); [destruct (_ || _)|]; simpl;
    try discriminate.
  now intros [= <-].
Qed.

(** X6: between(left, right)(content) on a successful state: when left,
    content and right succeed one after the other, the outcome carries
    the result of content alone and stands where right stopped; and every
    failure between returns is still named sequenceOf, between adds no
    name of its own. *)
Theorem between_outcome (left right content : Parser) (s : ParserState)
  (Hs : error s = None) :
  (forall sl sc sr,
      transformer left s = Ret sl -> error sl = None ->
      transformer content sl = Ret sc -> error sc = None ->
      transformer right sc = Ret sr -> error sr = None ->
      transformer (between left right content) s
      = Ret (mkState (input sr) (index sr) (result sc) None)) /\
  (forall out e,
      transformer (between left right content) s = Ret out ->
      error out = Some e ->
      ParserError.combinator e = "sequenceOf").
Proof.
  split.
  - intros sl sc sr Hl Hsl Hc Hsc Hr Hsr. unfold between, tuple.
    cbn [Parser.map transformer].
    rewrite (sequenceOf_all_succeed [left; content; right] (-1) s
               [sl; sc; sr] Hs).
    + reflexivity.
    + repeat (econstructor; [eassumption|]). constructor.
    + repeat constructor; assumption.
  - intros out e Hout He. unfold between, tuple in Hout.
    cbn [Parser.map transformer] in Hout.
    destruct (transformer (sequenceOf [left; content; right] (-1)) s)
      as [mid| |] eqn:Hmid; try discriminate.
    simpl in Hout. destruct (erroring mid) eqn:Emid.
    + injection Hout as <-.
      exact (sequenceOf_error_named _ _ _ _ _ Hs Hmid He).
    + injection Hout as <-. discriminate.
Qed.

Lemma between_outcome_witness :
  transformer (between (str "(") (str ")") uint)
              (mkState "(42)" 0 VUndefined None)
  = Ret (mkState "(42)" 4 (VNum 42) None).
Proof.
  exact (proj1 (between_outcome (str "(") (str ")") uint
                  (mkState "(42)" 0 VUndefined None) eq_refl)
           (mkState "(42)" 1 (VStr "(") None)
           (mkState "(42)" 3 (VNum 42) None)
           (mkState "(42)" 4 (VStr ")") None)
           eq_refl eq_refl eq_refl eq_refl eq_refl eq_refl).
Defined.

(** *** join, joinWJR *)

(** X7: every failure that join or joinWJR returns, on any state, is
    named join. *)
Theorem join_error_named (ps : list Parser) (j : Parser) (min : Z)
  (s : ParserState) :
  (forall out e,
      transformer (join ps j min) s = Ret out -> error out = Some e ->
      ParserError.combinator e = "join") /\
  (forall out e,
      transformer (joinWJR ps j min) s = Ret out -> error out = Some e ->
      ParserError.combinator e = "join").
Proof.
  assert (H : forall jr out e,
             transformer (__join ps j min jr) s = Ret out ->
             error out = Some e -> ParserError.combinator e = "join").
  { intros jr out e Hout He. unfold __join in Hout.
    cbn [Parser.mapError transformer] in Hout.
    destruct (transformer (sequenceOf _ min) s) as [mid| |];
      try discriminate.
    simpl in Hout. destruct (erroring mid) eqn:Emid; injection Hout as <-.
    - simpl in He. injection He as <-. unfold restamp.
      now destruct (error mid).
    - unfold erroring in Emid. rewrite He in Emid. discriminate. }
  split; intros out e; apply H.
Qed.

Lemma after_joiner_fails j q s sj sq e :
  error s = None ->
  transformer j s = Ret sj -> error sj = None ->
  transformer q sj = Ret sq -> error sq = Some e ->
  transformer (after_joiner j q) s
  = Ret (errorify sq (ParserError.stamp_nparser e "sequenceOf" 1)).
Proof.
  intros Hs Hj Hsj Hq Hsq. unfold after_joiner, tuple.
  cbn [Parser.map transformer].
  rewrite (sequenceOf_outcome [j; q] (-1) s [sj; sq] Hs)
    by (repeat (econstructor; [eassumption|]); constructor).
  unfold last_error, successes, final_state, succeeded, erroring.
  cbn [fold_left filter]. rewrite Hsj, Hsq. reflexivity.
Qed.

(** X8: the [min] of joinWJR counts the joiners too, that of join does
    not.  When the first parser and the joiner succeed and the second
    parser fails, joinWJR with [min = 2] succeeds, with the result of the
    joiner among its results and the index where the joiner stopped,
    while join with [min = 2] fails with one parser counted. *)
Theorem joinWJR_min_counts_joiners (p q j : Parser)
  (s sp sj sq : ParserState) (e : ParserError)
  (Hs : error s = None)
  (Hp : transformer p s = Ret sp) (Hsp : error sp = None)
  (Hj : transformer j sp = Ret sj) (Hsj : error sj = None)
  (Hq : transformer q sj = Ret sq) (Hsq : error sq = Some e) :
  transformer (joinWJR [p; q] j 2) s
  = Ret (mkState (input sq) (index sj)
                 (VArr [result sp; result sj; result sq]) None) /\
  transformer (join [p; q] j 2) s
  = Ret (mkState (input sq) (index sq) VUndefined
           (Some (ParserError.mk (ParserError.info e) "join"
                                 (ParserError.index e) (Some 1)
                                 (ParserError.nmatches e)))).
Proof.
  split.
  - unfold joinWJR, __join. cbn [__join_loop app Parser.mapError transformer].
    rewrite (sequenceOf_outcome [p; j; q] 2 s [sp; sj; sq] Hs)
      by (repeat (econstructor; [eassumption|]); constructor).
    unfold last_error, successes, final_state, last_success_index,
      succeeded, erroring.
    cbn [fold_left filter List.map]. rewrite Hsp, Hsj, Hsq. reflexivity.
  - unfold join, __join. cbn [__join_loop app Parser.mapError transformer].
    pose proof (after_joiner_fails j q sp sj sq e Hsp Hj Hsj Hq Hsq) as Hw.
    rewrite (sequenceOf_outcome [p; after_joiner j q] 2 s
               [sp; errorify sq (ParserError.stamp_nparser e "sequenceOf" 1)]
               Hs)
      by (repeat (econstructor; [eassumption|]); constructor).
    unfold last_error, successes, final_state, last_success_index,
      succeeded, erroring.
    cbn [fold_left filter List.map error errorify]. rewrite Hsp.
    reflexivity.
Qed.

Lemma joinWJR_min_counts_joiners_witness :
  transformer (joinWJR [uint; uint] (str ",") 2)
              (mkState "1,x" 0 VUndefined None)
  = Ret (mkState "1,x" 2 (VArr [VNum 1; VStr ","; VUndefined]) None).
Proof.
  exact (proj1 (joinWJR_min_counts_joiners uint uint (str ",")
                  (mkState "1,x" 0 VUndefined None)
                  (mkState "1,x" 1 (VNum 1) None)
                  (mkState "1,x" 2 (VStr ",") None)
                  (mkState "1,x" 2 VUndefined
                     (Some (ParserError.mk
                              "Unable to match an unsigned integer" "uint" 2
                              None None)))
                  (ParserError.mk "Unable to match an unsigned integer"
                                  "uint" 2 None None)
                  eq_refl eq_refl eq_refl eq_refl eq_refl eq_refl eq_refl)).
Defined.

(** *** manyJoin, manyJoinWJR: results *)

Lemma collected_mains first its :
  collected false first its
  = List.map result (filter succeeded (first :: List.map snd its)).
Proof.
  unfold collected. cbn [filter List.map andb].
  assert (Hits : flat_map (iteration_results false) its
                 = List.map result (filter succeeded (List.map snd its))).
  { induction its as [|[sj sp] its IH]; [reflexivity|].
    cbn [flat_map List.map filter snd]. rewrite IH.
    unfold iteration_results. cbn [andb fst snd app].
    now destruct (succeeded sp). }
  rewrite Hits. now destruct (succeeded first).
Qed.

Lemma __manyJoin_reaches_min fuel p j min jr s first its :
  error s = None ->
  manyJoin_run p j s first its ->
  (List.length its < fuel)%nat ->
  min <= main_matches first its ->
  transformer (__manyJoin fuel p j min jr) s
  = Ret (mkState (input (final_state (List.map snd its) first))
                 (index (final_state (List.map snd its) first))
                 (VArr (collected jr first its)) None).
Proof.
  intros Hs Hrun Hfuel Hmin.
  rewrite (__manyJoin_run _ _ _ _ _ _ _ _ Hs Hrun Hfuel).
  assert (Hge : (main_matches first its <? min) = false)
    by (apply Z.ltb_ge; exact Hmin).
  now rewrite Hge.
Qed.

(** X9: when a run reaches [min] successful main matches, manyJoin
    succeeds with the results of the successful main matches in order and
    nothing else, manyJoinWJR with the results of all successful matches,
    joiners included, in the order they were made; both stand at the
    index of the last state of the run. *)
Theorem manyJoin_results (fuel : nat) (p j : Parser) (min : Z)
  (s first : ParserState) (its : list (ParserState * ParserState))
  (Hs : error s = None)
  (Hrun : manyJoin_run p j s first its)
  (Hfuel : (List.length its < fuel)%nat)
  (Hmin : min <= main_matches first its) :
  transformer (manyJoin fuel p j min) s
  = Ret (mkState (input (final_state (List.map snd its) first))
                 (index (final_state (List.map snd its) first))
                 (VArr (List.map result
                          (filter succeeded (first :: List.map snd its))))
                 None) /\
  transformer (manyJoinWJR fuel p j min) s
  = Ret (mkState (input (final_state (List.map snd its) first))
                 (index (final_state (List.map snd its) first))
                 (VArr (collected true first its)) None).
Proof.
  split.
  - unfold manyJoin.
    rewrite (__manyJoin_reaches_min _ _ _ _ _ _ _ _ Hs Hrun Hfuel Hmin).
    now rewrite collected_mains.
  - exact (__manyJoin_reaches_min _ _ _ _ _ _ _ _ Hs Hrun Hfuel Hmin).
Qed.

Lemma manyJoin_results_witness :
  transformer (manyJoin 5 uint (str ",") 2) (csv 0 VUndefined)
  = Ret (mkState "1,2,x" 4 (VArr [VNum 1; VNum 2]) None) /\
  transformer (manyJoinWJR 5 uint (str ",") 2) (csv 0 VUndefined)
  = Ret (mkState "1,2,x" 4 (VArr [VNum 1; VStr ","; VNum 2; VStr ","]) None).
Proof.
  exact (manyJoin_results 5 uint (str ",") 2 (csv 0 VUndefined)
           (csv 1 (VNum 1)) csv_turns eq_refl csv_run
           (ltac:(vm_compute; lia)) (ltac:(vm_compute; discriminate))).
Defined.

Lemma collected_last_turn first its sj sp :
  error sj = None -> error sp <> None ->
  collected true first (its ++ [(sj, sp)])
  = collected true first its ++ [result sj].
Proof.
  intros Hsj Hsp. unfold collected.
  rewrite flat_map_app, app_assoc. f_equal.
  cbn [flat_map]. unfold iteration_results. cbn [fst snd].
  rewrite (succeeded_true _ Hsj), (succeeded_false _ Hsp). reflexivity.
Qed.

Lemma final_state_last_turn (its : list (ParserState * ParserState))
  sj sp first :
  final_state (List.map snd (its ++ [(sj, sp)])) first = sp.
Proof.
  rewrite map_app, final_state_app. reflexivity.
Qed.

(** X10: a separator at the end is consumed.  When in the last turn of a
    run the joiner succeeds and the main parser then fails, and the run
    has its [min] matches, manyJoin and manyJoinWJR both succeed in the
    state where that main parser failed, past the joiner if the parser
    failed in place, and the results of manyJoinWJR end with the result
    of that joiner. *)
Theorem manyJoin_trailing_joiner (fuel : nat) (p j : Parser) (min : Z)
  (s first sj sp : ParserState) (its : list (ParserState * ParserState))
  (Hs : error s = None)
  (Hrun : manyJoin_run p j s first (its ++ [(sj, sp)]))
  (Hsj : error sj = None)
  (Hsp : error sp <> None)
  (Hfuel : (List.length (its ++ [(sj, sp)]) < fuel)%nat)
  (Hmin : min <= main_matches first (its ++ [(sj, sp)])) :
  (exists out,
      transformer (manyJoin fuel p j min) s = Ret out /\
      error out = None /\ index out = index sp) /\
  (exists out,
      transformer (manyJoinWJR fuel p j min) s = Ret out /\
      error out = None /\ index out = index sp /\
      result out = VArr (collected true first its ++ [result sj])).
Proof.
  pose proof (__manyJoin_reaches_min fuel p j min false s first _
                Hs Hrun Hfuel Hmin) as Hplain.
  pose proof (__manyJoin_reaches_min fuel p j min true s first _
                Hs Hrun Hfuel Hmin) as HWJR.
  rewrite final_state_last_turn in Hplain, HWJR.
  split; eexists; (split; [eassumption|]); simpl; repeat split.
  now rewrite (collected_last_turn first its sj sp Hsj Hsp).
Qed.

Lemma manyJoin_trailing_joiner_witness :
  exists out,
    transformer (manyJoinWJR 5 uint (str ",") 0) (csv 0 VUndefined)
    = Ret out /\
    index out = 4 /\
    result out = VArr [VNum 1; VStr ","; VNum 2; VStr ","].
Proof.
  destruct (manyJoin_trailing_joiner 5 uint (str ",") 0
              (csv 0 VUndefined) (csv 1 (VNum 1)) (csv 4 (VStr ","))
              csv_failed [(csv 2 (VStr ","), csv 3 (VNum 2))]
              eq_refl csv_run eq_refl (ltac:(discriminate))
              (ltac:(vm_compute; lia)) (ltac:(vm_compute; discriminate)))
    as [_ (out & Hout & _ & Hidx & Hres)].
  exists out. repeat split; assumption.
Defined.

(** *** manyJoin, manyJoinWJR: the endless loop *)

Lemma __manyJoin_loop_never_exits p j jr :
  always_succeeds p -> always_succeeds j ->
  forall fuel starts v,
    error (mj_nextState v) = None -> mj_done v = false ->
    __manyJoin_loop fuel p j jr starts v = OutOfFuel.
Proof.
  intros Hp Hj. induction fuel as [|fuel IH]; intros starts v Hv Hdone;
    [reflexivity|].
  cbn [__manyJoin_loop].
  assert (Hjoiner : exists v1,
             __manyJoin_joiner j jr starts v = Ret v1 /\
             error (mj_nextState v1) = None /\ mj_done v1 = false).
  { destruct starts.
    - exists v. now repeat split.
    - destruct (Hj _ Hv) as (sj & Hsj & Hok).
      rewrite (__manyJoin_joiner_step j jr v sj Hsj).
      eexists. split; [reflexivity|]. simpl.
      rewrite Hdone, (erroring_false _ Hok). now split. }
  destruct Hjoiner as (v1 & -> & Hv1 & Hdone1). cbn [bind].
  destruct (Hp _ Hv1) as (sp & Hsp & Hok).
  rewrite (__manyJoin_parser_step p v1 sp Hsp). cbn [bind mj_done].
  rewrite Hdone1, (erroring_false _ Hok). cbn [orb].
  apply IH; [exact Hok | reflexivity].
Qed.

(** X11: given a main parser and a joiner that both succeed on every
    successful state, the loop of manyJoin and manyJoinWJR never ends: no
    amount of fuel makes it return. *)
Theorem manyJoin_never_returns (p j : Parser) (min : Z) (s : ParserState)
  (Hp : always_succeeds p)
  (Hj : always_succeeds j)
  (Hs : error s = None) :
  forall fuel,
    transformer (manyJoin fuel p j min) s = OutOfFuel /\
    transformer (manyJoinWJR fuel p j min) s = OutOfFuel.
Proof.
  intros fuel. split; simpl; rewrite (erroring_false _ Hs);
    now rewrite (__manyJoin_loop_never_exits p j _ Hp Hj fuel true
                   (mkJoin s false 0 []) Hs eq_refl).
Qed.

Lemma manyJoin_never_returns_witness :
  transformer (manyJoin 1000 (succeed (VNum 0)) (succeed (VStr ",")) 0)
              (mkState "abc" 0 VUndefined None) = OutOfFuel.
Proof.
  exact (proj1 (manyJoin_never_returns (succeed (VNum 0)) (succeed (VStr ","))
                  0 (mkState "abc" 0 VUndefined None)
                  (succeed_always_succeeds (VNum 0))
                  (succeed_always_succeeds (VStr ",")) eq_refl 1000%nat)).
Defined.

(** *** contextual: the value returned *)

Lemma advances_successful g it sent st n it' sent' st' :
  advances g it sent st n it' sent' st' ->
  error st = None -> error st' = None.
Proof. induction 1; auto. Qed.

(** X12: run contextual on a successful state and let the step function
    return [value] after [n] yielded parsers have succeeded in turn, each
    on the state of the one before and each sending its result into the
    next resumption.  Then contextual succeeds with [value] as result, at
    the index where the last yielded parser stopped. *)
Theorem contextual_returns (fuel : nat) (g : Generator Value Value)
  (s : ParserState) (n : nat) (it : iterator g) (sent value : Value)
  (st : ParserState)
  (Hs : error s = None)
  (Hreach : advances g (generator g) VUndefined (resultify s VUndefined)
                     n it sent st)
  (Hdone : next g it sent = IterDone value)
  (Hfuel : (n < fuel)%nat) :
  transformer (contextual fuel g) s
  = Ret (mkState (input st) (index st) value None).
Proof.
  rewrite (contextual_drives fuel g s Hs).
  apply (drive_returns g _ _ _ n it sent st Hreach value fuel Hdone);
    [|exact Hfuel].
  exact (advances_successful g _ _ _ _ _ _ _ Hreach eq_refl).
Qed.

Lemma length_prefixed_advances :
  advances length_prefixed (generator length_prefixed) VUndefined
           (resultify (mkState "3aaab" 0 VUndefined None) VUndefined)
           2 2%nat (VStr "aaa") (mkState "3aaab" 4 (VStr "aaa") None).
Proof.
  apply (advances_more length_prefixed O VUndefined _ uint 1%nat
           (mkState "3aaab" 1 (VNum 3) None));
    [reflexivity | reflexivity | reflexivity |].
  apply (advances_more length_prefixed 1%nat (VNum 3) _ (str "aaa") 2%nat
           (mkState "3aaab" 4 (VStr "aaa") None));
    [reflexivity | reflexivity | reflexivity |].
  apply advances_none.
Qed.

Lemma contextual_returns_witness :
  transformer (contextual 5 length_prefixed)
              (mkState "3aaab" 0 VUndefined None)
  = Ret (mkState "3aaab" 4 (VStr "aaa") None).
Proof.
  exact (contextual_returns 5 length_prefixed
           (mkState "3aaab" 0 VUndefined None) 2 2%nat (VStr "aaa")
           (VStr "aaa") (mkState "3aaab" 4 (VStr "aaa") None)
           eq_refl length_prefixed_advances eq_refl (ltac:(lia))).
Defined.

(** *** contextual: the name of its failures *)

Lemma drive_error_named fuel g it sent st out e :
  error st = None ->
  drive fuel g it sent st = Ret out ->
  error out = Some e ->
  ParserError.combinator e = "contextual".
Proof.
  intros Hst Hout He. destruct fuel as [|fuel]; [discriminate|].
  unfold drive in Hout. cbn [runStep] in Hout.
  destruct (next g it sent) as [[p|x] it1|value].
  - cbn [bind Parser.mapError transformer] in Hout.
    destruct (transformer (Parser.chain p (runStep fuel g it1)) st)
      as [mid| |]; try discriminate.
    cbn [bind] in Hout. destruct (erroring mid) eqn:Emid;
      injection Hout as <-.
    + simpl in He. injection He as <-. unfold restamp.
      now destruct (error mid).
    + unfold erroring in Emid. rewrite He in Emid. discriminate.
  - discriminate.
  - cbn [bind succeed transformer] in Hout.
    rewrite (erroring_false _ Hst) in Hout. injection Hout as <-.
    discriminate.
Qed.

(** X13: every failure that contextual returns on a successful state is
    named contextual, whichever yielded parser failed and whatever name
    its error had. *)
Theorem contextual_error_named (fuel : nat) (g : Generator Value Value)
  (s out : ParserState) (e : ParserError)
  (Hs : error s = None)
  (Hout : transformer (contextual fuel g) s = Ret out)
  (He : error out = Some e) :
  ParserError.combinator e = "contextual".
Proof.
  rewrite (contextual_drives fuel g s Hs) in Hout.
  exact (drive_error_named fuel g (generator g) VUndefined
           (resultify s VUndefined) out e eq_refl Hout He).
Qed.

Lemma contextual_error_named_witness :
  transformer (contextual 5 length_prefixed) (mkState "3ab" 0 VUndefined None)
  = Ret (mkState "3ab" 1 VUndefined
           (Some (ParserError.mk "Unable to match 'aaa'" "contextual" 1
                                 None None))) /\
  ParserError.combinator
    (ParserError.mk "Unable to match 'aaa'" "contextual" 1 None None)
  = "contextual".
Proof.
  split; [reflexivity|].
  exact (contextual_error_named 5 length_prefixed
           (mkState "3ab" 0 VUndefined None)
           (mkState "3ab" 1 VUndefined
              (Some (ParserError.mk "Unable to match 'aaa'" "contextual" 1
                                    None None)))
           (ParserError.mk "Unable to match 'aaa'" "contextual" 1 None None)
           eq_refl eq_refl eq_refl).
Defined.

(** *** stateContextual *)

(** X14: stateContextual threads states, not results, and never looks at
    their error.  When the step function has yielded [n] parsers, each
    run on the state the one before returned, failed or not, and is
    resumed with the last of these states: if it returns a state,
    stateContextual returns exactly that state; if it yields a value that
    is not a parser, stateContextual throws. *)
Theorem stateContextual_threads (fuel : nat)
  (g : Generator ParserState ParserState) (s : ParserState) (n : nat)
  (it : iterator g) (st : ParserState)
  (Hreach : threads g (generator g) s n it st)
  (Hfuel : (n < fuel)%nat) :
  (forall value,
      next g it st = IterDone value ->
      transformer (stateContextual fuel g) s = Ret value) /\
  (forall x it',
      next g it st = IterYield (YOther x) it' ->
      transformer (stateContextual fuel g) s
      = Throw "stateContextual: yielded values must always be parsers").
Proof.
  split; intros; cbn [stateContextual transformer];
    rewrite (transformStep_threads g _ _ n it st Hreach fuel Hfuel);
    now rewrite H.
Qed.

Lemma stateContextual_threads_witness :
  transformer (stateContextual 2 recovering) failed_at_1
  = Ret (mkState "ab" 1 VUndefined None).
Proof.
  refine (proj1 (stateContextual_threads 2 recovering failed_at_1 1 true
                   failed_at_1 _ (ltac:(lia)))
            (mkState "ab" 1 VUndefined None) eq_refl).
  apply (threads_more recovering false failed_at_1 (str "a") true
           failed_at_1 O true failed_at_1);
    [reflexivity | reflexivity | apply threads_none].
Defined.

(** *** choice *)

Lemma choice_loop_found ps :
  forall s out, choice_loop ps s = Ret (Some out) -> erroring out = false.
Proof.
  induction ps as [|p ps IH]; intros s out Hloop; simpl in Hloop;
    [discriminate|].
  destruct (transformer p s) as [o| |]; try discriminate.
  simpl in Hloop. destruct (erroring o) eqn:Eo.
  - exact (IH _ _ Hloop).
  - now injection Hloop as <-.
Qed.

Lemma choice_loop_app ps qs s :
  choice_loop (ps ++ qs) s
  = (found <- choice_loop ps s ;;
     match found with
     | Some out => Ret (Some out)
     | None => choice_loop qs s
     end).
Proof.
  induction ps as [|p ps IH]; simpl; [reflexivity|].
  destruct (transformer p s) as [o| |]; simpl; try reflexivity.
  destruct (erroring o); [exact IH | reflexivity].
Qed.

(** X15: choice composes by concatenation: a choice between a choice of
    [ps] and a choice of [qs] returns, on every state, what the choice of
    [ps ++ qs] returns, failures included, since the error of choice does
    not depend on its alternatives. *)
Theorem choice_flattens (ps qs : list Parser) (s : ParserState) :
  transformer (choice [choice ps; choice qs]) s
  = transformer (choice (ps ++ qs)) s.
Proof.
  cbn [choice transformer]. destruct (erroring s) eqn:Es; [reflexivity|].
  rewrite choice_loop_app. cbn [choice_loop choice transformer]. rewrite Es.
  destruct (choice_loop ps s) as [[o|]| |] eqn:Hps; cbn [bind];
    try reflexivity.
  - rewrite (choice_loop_found ps s o Hps). reflexivity.
  - cbn [erroring errorify error].
    destruct (choice_loop qs s) as [[o|]| |] eqn:Hqs; cbn [bind];
      try reflexivity.
    rewrite (choice_loop_found qs s o Hqs). reflexivity.
Qed.

(** *** many: the result of a run *)

Lemma many_succeeds_witness :
  transformer (many 5 (str "a") 0) (mkState "aab" 0 VUndefined None)
  = Ret (mkState "aab" 2 (VArr [VStr "a"; VStr "a"]) None).
Proof.
  apply (many_succeeds 5 (str "a") 0 (mkState "aab" 0 VUndefined None)
           [mkState "aab" 1 (VStr "a") None; mkState "aab" 2 (VStr "a") None]
           (mkState "aab" 2 VUndefined
              (Some (ParserError.mk "Unable to match 'a'" "str" 2 None None)))
           eq_refl).
  - apply repeats_more; [reflexivity | reflexivity |].
    apply repeats_more; [reflexivity | reflexivity |].
    apply repeats_stop; [reflexivity | discriminate].
  - simpl. lia.
  - simpl. lia.
Defined.
